(** * modify_rust_for_variants.py: the anchor patch engine and the layered
      settings resolver

    The script patches a Rust source file with [str.replace] calls on literal
    anchors, and the Rust text it inserts resolves clustering settings through
    the chain variant > base settings > hard-coded default.  Both are embedded
    below: Python's [str.replace], [in] and [str.count] on sequences of
    characters, the two rule sets [modify_cluster_topics_v1] and
    [modify_cluster_topics_v2] with their literal texts, the script's entry
    point over a file store, and the inserted Rust functions
    [load_variant_settings] and the settings block of [main]. *)

From Stdlib Require Import Strings.String Strings.Ascii NArith Floats.
From stdpp Require Import base decidable option list gmap strings.

Local Open Scope list_scope.

(* Decimal literals such as 0.7 denote the nearest binary64 value, in Rust as
   here. *)
Set Warnings "-inexact-float".

(** ** Python string primitives

    A Python [str] is a sequence of code points; the functions are written
    over any character type with decidable equality.  The concrete documents
    further down are UTF-8 byte sequences, on which literal substring search
    finds the same matches as on code points. *)

Section PyStr.
Context {A : Type} `{EqDecision A}.
Implicit Types (old new s d p q r u x y g : list A).

(** [d.startswith(s)] *)
Fixpoint startswith s d : bool :=
  match s, d with
  | [], _ => true
  | _ :: _, [] => false
  | a :: s', b :: d' => if decide (a = b) then startswith s' d' else false
  end.

(** [s in d]: literal substring test. *)
Fixpoint contains s d : bool :=
  if startswith s d then true
  else match d with
       | [] => false
       | _ :: d' => contains s d'
       end.

(** The left-to-right scan shared by [replace] and [count]: [skip] is the
    number of characters of the current match still to be stepped over. *)
Fixpoint replace_from old new (skip : nat) d : list A :=
  match d with
  | [] => []
  | c :: d' =>
      match skip with
      | S k => replace_from old new k d'
      | O => if startswith old d
             then new ++ replace_from old new (length old - 1) d'
             else c :: replace_from old new 0 d'
      end
  end.

(** [d.replace(old, new)], no count argument: every non-overlapping
    occurrence, scanned from the left.  An empty [old] matches before every
    character and at the end. *)
Definition replace old new d : list A :=
  match old with
  | [] => new ++ flat_map (λ c, c :: new) d
  | _ :: _ => replace_from old new 0 d
  end.

Fixpoint count_from s (skip : nat) d : nat :=
  match d with
  | [] => 0
  | _ :: d' =>
      match skip with
      | S k => count_from s k d'
      | O => if startswith s d
             then S (count_from s (length s - 1) d')
             else count_from s 0 d'
      end
  end.

(** [d.count(s)]: number of non-overlapping occurrences. *)
Definition count s d : nat :=
  match s with
  | [] => S (length d)
  | _ :: _ => count_from s 0 d
  end.

(** [d.replace(old, new, 1)]: what a first-occurrence-only policy computes.
    The script never passes a count; this is the reading of "only the first
    occurrence is affected", kept for comparison with [replace]. *)
Fixpoint replace_first old new d : list A :=
  if startswith old d then new ++ drop (length old) d
  else match d with
       | [] => []
       | c :: d' => c :: replace_first old new d'
       end.

(** The scan as a relation between input and output; [replace] computes it
    when [old] is not empty. *)
Inductive scan old new : list A → list A → Prop :=
| scan_nil : scan old new [] []
| scan_match rest out :
    scan old new rest out → scan old new (old ++ rest) (new ++ out)
| scan_step c d out :
    ¬ old `prefix_of` (c :: d) →
    scan old new d out → scan old new (c :: d) (c :: out).

(** Occurrence as a proposition. *)
Definition occurs s d : Prop := ∃ p q, d = p ++ s ++ q.

(** [p ++ old ++ rest] with no occurrence of [old] starting inside [p]. *)
Definition first_at old p rest : Prop :=
  ∀ p' q', p ++ old ++ rest = p' ++ old ++ q' → length p ≤ length p'.

(** Every occurrence of [s] in [d] is immediately preceded by [g]. *)
Definition guarded g s d : Prop := ∀ p q, d = p ++ s ++ q → g `suffix_of` p.

(** Two disjoint occurrences. *)
Definition occurs_twice s d : Prop := ∃ p q r, d = p ++ s ++ q ++ s ++ r.

(** A non-empty suffix of [x] that is a prefix of [y]: the two words can
    overlap with [x] to the left. *)
Definition border x y : Prop :=
  ∃ u, u ≠ [] ∧ u `suffix_of` x ∧ u `prefix_of` y.

Fixpoint borderb_from x y : bool :=
  match x with
  | [] => false
  | _ :: x' => startswith x y || borderb_from x' y
  end.
Definition borderb x y : bool := borderb_from x y.

(** [s] and [old] neither contain one another nor overlap. *)
Definition apart s old : bool :=
  negb (borderb s old) && negb (borderb old s)
  && negb (contains old s) && negb (contains s old).



(** No proper overlap of [s] with itself. *)
Definition unbordered s : bool :=
  match s with
  | [] => false
  | _ :: s' => negb (borderb_from s' s)
  end.
(** [d.endswith(s)] *)
Definition endswith s d : bool := startswith (reverse s) (reverse d).

(** Every non-empty suffix of [x] that is a prefix of [y] is also a prefix,
    respectively a suffix, of [z]. *)
Fixpoint starts_kept_from x y z : bool :=
  match x with
  | [] => true
  | _ :: x' =>
      (negb (startswith x y) || startswith x z) && starts_kept_from x' y z
  end.

Fixpoint ends_kept_from x y z : bool :=
  match x with
  | [] => true
  | _ :: x' =>
      (negb (startswith x y) || endswith x z) && ends_kept_from x' y z
  end.

(** An occurrence of [s] outlives [replace old new]: neither word contains
    the other, and where a match of [old] can overlap [s], [new] begins or
    ends with the overlap. *)
Definition survives s old new : bool :=
  negb (contains old s) && negb (contains s old)
  && starts_kept_from s old new && ends_kept_from old s new.

(** [replace old new] cannot create an occurrence of [s]: [new] and [s] do
    not contain one another, and where [new] can overlap [s], [old] begins
    or ends with the overlap. *)
Definition not_created s old new : bool :=
  negb (contains s new) && negb (contains new s)
  && starts_kept_from s new old && ends_kept_from new s old.
(** The number of occurrences of [s] in [d] that are not immediately
    preceded by [g]; [rpre] is the text read so far, reversed. *)
Fixpoint unguarded_count_from g s (rpre : list A) d : nat :=
  (if startswith s d && negb (startswith (reverse g) rpre) then 1 else 0)
  + match d with
    | [] => 0
    | c :: d' => unguarded_count_from g s (c :: rpre) d'
    end.
Definition unguarded_count g s d : nat := unguarded_count_from g s [] d.

End PyStr.

(** ** The anchor patch engine

    The script has no rule type: each edit is a call
    [content = content.replace(anchor, ...)] whose second argument is the
    anchor followed by new text (append-after), new text followed by the
    anchor (insert-before), or a different span (replace-span).  [AnchorRule]
    names these three shapes so that statements can range over all of them;
    [apply_rule] is the one call, [apply_rules] the sequence of calls, each on
    the output of the previous one. *)

Inductive mode := append_after | insert_before | replace_span.

Record AnchorRule (A : Type) := mkRule {
  anchor : list A;
  insertion : list A;
  rule_mode : mode
}.
Arguments mkRule {A} _ _ _.
Arguments anchor {A} _.
Arguments insertion {A} _.
Arguments rule_mode {A} _.

Section Engine.
Context {A : Type} `{EqDecision A}.

(** The second argument of the [replace] call. *)
Definition replacement (r : AnchorRule A) : list A :=
  match rule_mode r with
  | append_after => anchor r ++ insertion r
  | insert_before => insertion r ++ anchor r
  | replace_span => insertion r
  end.

Definition apply_rule (r : AnchorRule A) (d : list A) : list A :=
  replace (anchor r) (replacement r) d.

Definition apply_rules (rules : list (AnchorRule A)) (d : list A) : list A :=
  foldl (λ content r, apply_rule r content) d rules.

(** The same rule under a first-occurrence-only policy. *)
Definition apply_rule_first (r : AnchorRule A) (d : list A) : list A :=
  replace_first (anchor r) (replacement r) d.
End Engine.

(** ** Documents and the literal texts of the script *)

Definition document : Type := list ascii.

Definition nl : string := String (ascii_of_nat 10) EmptyString.
Definition dq : string := String (ascii_of_nat 34) EmptyString.

(** A Rust string literal inside a line of text. *)
Definition quoted (s : string) : string := dq +:+ s +:+ dq.

(** A text given line by line: the lines joined by newline characters. *)
Definition text (lines : list string) : document :=
  list_ascii_of_string (String.concat nl lines).

Definition indicatif_import : document :=
  text [ "use indicatif::{ProgressBar, ProgressStyle};" ].

Definition clap_import : document := text [ "use clap::Parser;" ].

Definition indicatif_and_clap : document :=
  text [ "use indicatif::{ProgressBar, ProgressStyle};"
       ; "use clap::Parser;" ].

(** What the import edit adds after the anchor. *)
Definition newline_clap : document := text [ ""; "use clap::Parser;" ].

Definition settings_struct_anchor : document :=
  text [ ""
       ; "#[derive(Debug, Deserialize)]"
       ; "struct Settings {" ].

Definition main_anchor : document :=
  text [ "#[tokio::main]"
       ; "async fn main(" ].

Definition start_time_stmt : document :=
  text [ "let start_time = Instant::now();" ].

Definition args_and_start_time : document :=
  text [ "let args = Args::parse();"
       ; "    let start_time = Instant::now();" ].

(** [variant_structs] of [modify_cluster_topics_v1] (lines 26-61). *)
Definition variant_structs : document := text
  [ ""
  ; "/// Command-line arguments"
  ; "#[derive(Parser, Debug)]"
  ; "#[command(name = " +:+ quoted "cluster-topics" +:+ ")]"
  ; "#[command(about = " +:+ quoted "V1 Topic clustering using HAC" +:+ ", long_about = None)]"
  ; "struct Args {"
  ; "    /// Variant name to load from variants.json"
  ; "    #[arg(short, long)]"
  ; "    variant: Option<String>,"
  ; "}"
  ; ""
  ; "#[derive(Debug, Deserialize, Clone)]"
  ; "struct VariantsConfig {"
  ; "    variants: HashMap<String, VariantConfig>,"
  ; "}"
  ; ""
  ; "#[derive(Debug, Deserialize, Clone)]"
  ; "struct VariantConfig {"
  ; "    version: String,"
  ; "    name: String,"
  ; "    settings: VariantSettings,"
  ; "}"
  ; ""
  ; "#[derive(Debug, Deserialize, Clone)]"
  ; "struct VariantSettings {"
  ; "    clusters: Option<usize>,"
  ; "    #[serde(rename = " +:+ quoted "outlierThreshold" +:+ ")]"
  ; "    outlier_threshold: Option<f64>,"
  ; "    #[serde(rename = " +:+ quoted "linkageMethod" +:+ ")]"
  ; "    linkage_method: Option<String>,"
  ; "    #[serde(rename = " +:+ quoted "useRelevanceWeighting" +:+ ")]"
  ; "    use_relevance_weighting: Option<bool>,"
  ; "    #[serde(rename = " +:+ quoted "useLLMNaming" +:+ ")]"
  ; "    use_llm_naming: Option<bool>,"
  ; "}"
  ; ""
  ].

(** [helper_function] (lines 70-87; the literal at lines 217-234 of
    [modify_cluster_topics_v2] is the same text). *)
Definition helper_function : document := text
  [ ""
  ; "/// Load variant settings from variants.json"
  ; "fn load_variant_settings(variant_name: &str) -> Result<VariantSettings, Box<dyn std::error::Error>> {"
  ; "    let variants_path = PathBuf::from(" +:+ quoted "variants.json" +:+ ");"
  ; "    if !variants_path.exists() {"
  ; "        return Err(" +:+ quoted "variants.json not found" +:+ ".into());"
  ; "    }"
  ; "    "
  ; "    let variants_content = fs::read_to_string(&variants_path)?;"
  ; "    let variants_config: VariantsConfig = serde_json::from_str(&variants_content)?;"
  ; "    "
  ; "    let variant = variants_config.variants.get(variant_name)"
  ; "        .ok_or_else(|| format!(" +:+ quoted "Variant '{}' not found in variants.json" +:+ ", variant_name))?;"
  ; "    "
  ; "    Ok(variant.settings.clone())"
  ; "}"
  ; ""
  ; ""
  ].

(** [old_main_start] (lines 95-110). *)
Definition old_main_start : document := text
  [ "async fn main() -> Result<(), Box<dyn std::error::Error>> {"
  ; "    let start_time = Instant::now();"
  ; "    println!(" +:+ quoted "🔬 Topic-Clustering für Freakshow Episoden\n" +:+ ");"
  ; "    let settings_path = PathBuf::from(" +:+ quoted "settings.json" +:+ ");"
  ; "    if !settings_path.exists() {"
  ; "        eprintln!(" +:+ quoted "\n❌ settings.json nicht gefunden!" +:+ ");"
  ; "        eprintln!(" +:+ quoted "   Kopiere settings.example.json zu settings.json und passe die Konfiguration an.\n" +:+ ");"
  ; "        std::process::exit(1);"
  ; "    }"
  ; "    let settings_content = fs::read_to_string(&settings_path)?;"
  ; "    let settings: Settings = serde_json::from_str(&settings_content)?;"
  ; "    let target_clusters = settings.topic_clustering.as_ref().and_then(|s| s.clusters).unwrap_or(256);"
  ; "    let outlier_threshold = settings.topic_clustering.as_ref().and_then(|s| s.outlier_threshold).unwrap_or(0.7);"
  ; "    let linkage_method = settings.topic_clustering.as_ref().and_then(|s| s.linkage_method.clone()).unwrap_or_else(|| " +:+ quoted "weighted" +:+ ".to_string());"
  ; "    let use_relevance_weighting = settings.topic_clustering.as_ref().and_then(|s| s.use_relevance_weighting).unwrap_or(true);"
  ; "    let use_llm_naming = settings.topic_clustering.as_ref().and_then(|s| s.use_llm_naming).unwrap_or(true);"
  ].

(** [new_main_start] (lines 112-149). *)
Definition new_main_start : document := text
  [ "async fn main() -> Result<(), Box<dyn std::error::Error>> {"
  ; "    let start_time = Instant::now();"
  ; "    println!(" +:+ quoted "🔬 Topic-Clustering für Freakshow Episoden\n" +:+ ");"
  ; "    "
  ; "    // Parse command-line arguments"
  ; "    let args = Args::parse();"
  ; "    "
  ; "    // Load base settings"
  ; "    let settings_path = PathBuf::from(" +:+ quoted "settings.json" +:+ ");"
  ; "    if !settings_path.exists() {"
  ; "        eprintln!(" +:+ quoted "\n❌ settings.json nicht gefunden!" +:+ ");"
  ; "        eprintln!(" +:+ quoted "   Kopiere settings.example.json zu settings.json und passe die Konfiguration an.\n" +:+ ");"
  ; "        std::process::exit(1);"
  ; "    }"
  ; "    let settings_content = fs::read_to_string(&settings_path)?;"
  ; "    let settings: Settings = serde_json::from_str(&settings_content)?;"
  ; "    "
  ; "    // Override with variant settings if specified"
  ; "    let (target_clusters, outlier_threshold, linkage_method, use_relevance_weighting, use_llm_naming) = "
  ; "        if let Some(variant_name) = &args.variant {"
  ; "            println!(" +:+ quoted "📋 Loading variant: {}\n" +:+ ", variant_name);"
  ; "            let variant_settings = load_variant_settings(variant_name)?;"
  ; "            ("
  ; "                variant_settings.clusters.or(settings.topic_clustering.as_ref().and_then(|s| s.clusters)).unwrap_or(256),"
  ; "                variant_settings.outlier_threshold.or(settings.topic_clustering.as_ref().and_then(|s| s.outlier_threshold)).unwrap_or(0.7),"
  ; "                variant_settings.linkage_method.or(settings.topic_clustering.as_ref().and_then(|s| s.linkage_method.clone())).unwrap_or_else(|| " +:+ quoted "weighted" +:+ ".to_string()),"
  ; "                variant_settings.use_relevance_weighting.or(settings.topic_clustering.as_ref().and_then(|s| s.use_relevance_weighting)).unwrap_or(true),"
  ; "                variant_settings.use_llm_naming.or(settings.topic_clustering.as_ref().and_then(|s| s.use_llm_naming)).unwrap_or(true),"
  ; "            )"
  ; "        } else {"
  ; "            ("
  ; "                settings.topic_clustering.as_ref().and_then(|s| s.clusters).unwrap_or(256),"
  ; "                settings.topic_clustering.as_ref().and_then(|s| s.outlier_threshold).unwrap_or(0.7),"
  ; "                settings.topic_clustering.as_ref().and_then(|s| s.linkage_method.clone()).unwrap_or_else(|| " +:+ quoted "weighted" +:+ ".to_string()),"
  ; "                settings.topic_clustering.as_ref().and_then(|s| s.use_relevance_weighting).unwrap_or(true),"
  ; "                settings.topic_clustering.as_ref().and_then(|s| s.use_llm_naming).unwrap_or(true),"
  ; "            )"
  ; "        };"
  ].

(** [variant_structs] of [modify_cluster_topics_v2] (lines 170-208). *)
Definition variant_structs_v2 : document := text
  [ ""
  ; "/// Command-line arguments"
  ; "#[derive(Parser, Debug)]"
  ; "#[command(name = " +:+ quoted "cluster-topics-v2" +:+ ")]"
  ; "#[command(about = " +:+ quoted "V2 Topic clustering using HDBSCAN" +:+ ", long_about = None)]"
  ; "struct Args {"
  ; "    /// Variant name to load from variants.json"
  ; "    #[arg(short, long)]"
  ; "    variant: Option<String>,"
  ; "}"
  ; ""
  ; "#[derive(Debug, Deserialize, Clone)]"
  ; "struct VariantsConfig {"
  ; "    variants: HashMap<String, VariantConfig>,"
  ; "}"
  ; ""
  ; "#[derive(Debug, Deserialize, Clone)]"
  ; "struct VariantConfig {"
  ; "    version: String,"
  ; "    name: String,"
  ; "    settings: VariantSettings,"
  ; "}"
  ; ""
  ; "#[derive(Debug, Deserialize, Clone)]"
  ; "struct VariantSettings {"
  ; "    #[serde(rename = " +:+ quoted "minClusterSize" +:+ ")]"
  ; "    min_cluster_size: Option<usize>,"
  ; "    #[serde(rename = " +:+ quoted "minSamples" +:+ ")]"
  ; "    min_samples: Option<usize>,"
  ; "    #[serde(rename = " +:+ quoted "reducedDimensions" +:+ ")]"
  ; "    reduced_dimensions: Option<usize>,"
  ; "    #[serde(rename = " +:+ quoted "outlierThreshold" +:+ ")]"
  ; "    outlier_threshold: Option<f64>,"
  ; "    #[serde(rename = " +:+ quoted "useRelevanceWeighting" +:+ ")]"
  ; "    use_relevance_weighting: Option<bool>,"
  ; "    #[serde(rename = " +:+ quoted "useLLMNaming" +:+ ")]"
  ; "    use_llm_naming: Option<bool>,"
  ; "}"
  ; ""
  ].
(** ** The two transformations and the entry point *)

(** The four [replace] calls of [modify_cluster_topics_v1], lines 20-151. *)
Definition patch_v1 (content : document) : document :=
  let content := replace indicatif_import indicatif_and_clap content in
  let content := replace settings_struct_anchor
                   (variant_structs ++ settings_struct_anchor) content in
  let content := replace main_anchor (helper_function ++ main_anchor) content in
  let content := replace old_main_start new_main_start content in
  content.

(** The calls of [modify_cluster_topics_v2], lines 164-247: the fourth one is
    guarded by an [in] test. *)
Definition patch_v2 (content : document) : document :=
  let content := replace indicatif_import indicatif_and_clap content in
  let content := replace settings_struct_anchor
                   (variant_structs_v2 ++ settings_struct_anchor) content in
  let content := replace main_anchor (helper_function ++ main_anchor) content in
  let content :=
    if contains start_time_stmt content
    then replace start_time_stmt args_and_start_time content
    else content in
  content.

(** The same edits as lists of rules. *)
Definition rules_v1 : list (AnchorRule ascii) :=
  [ mkRule indicatif_import newline_clap append_after
  ; mkRule settings_struct_anchor variant_structs insert_before
  ; mkRule main_anchor helper_function insert_before
  ; mkRule old_main_start new_main_start replace_span ].

Definition rules_v2 : list (AnchorRule ascii) :=
  [ mkRule indicatif_import newline_clap append_after
  ; mkRule settings_struct_anchor variant_structs_v2 insert_before
  ; mkRule main_anchor helper_function insert_before
  ; mkRule start_time_stmt (text [ "let args = Args::parse();"; "    " ])
           insert_before ].

(** The import edit and the edit of [main] as replace-span rules, and a
    document with the import line twice. *)
Definition import_rule : AnchorRule ascii :=
  mkRule indicatif_import indicatif_and_clap replace_span.

Definition main_rule : AnchorRule ascii :=
  mkRule old_main_start new_main_start replace_span.

Definition two_imports : document :=
  text [ "use indicatif::{ProgressBar, ProgressStyle};"
       ; "use indicatif::{ProgressBar, ProgressStyle};" ].

(** The two-line document of the replace-span example. *)
Definition import_and_main : document :=
  text [ "use indicatif::{ProgressBar, ProgressStyle};"
       ; "fn main(){}" ].

(** The name of the helper with the keyword of its definition, and the name
    of the parsed arguments with the keyword of its binding. *)
Definition helper_name : document := text [ "load_variant_settings" ].
Definition fn_keyword : document := text [ "fn " ].
Definition args_name : document := text [ "args" ].
Definition let_keyword : document := text [ "let " ].

(** A document that calls the helper before any transformation. *)
Definition already_calls : document :=
  text [ "fn main() {"
       ; "    let v = load_variant_settings(name)?;"
       ; "}" ].

(** A small document with the four anchors of the v2 transformation. *)
Definition v2_target : document :=
  text [ "use indicatif::{ProgressBar, ProgressStyle};"
       ; ""
       ; "#[derive(Debug, Deserialize)]"
       ; "struct Settings {"
       ; "}"
       ; ""
       ; "#[tokio::main]"
       ; "async fn main() {"
       ; "    let start_time = Instant::now();"
       ; "}" ].

(** What the last edit of v2 puts before its anchor, and the statement in
    it. *)
Definition args_insertion : document :=
  text [ "let args = Args::parse();"; "    " ].
Definition args_stmt : document := text [ "let args = Args::parse();" ].

(** The import edit as an append-after rule. *)
Definition import_append_rule : AnchorRule ascii :=
  mkRule indicatif_import newline_clap append_after.

(** ** Files, output and the entry point

    The script reads with [open(filepath, 'r')] and writes with
    [open(filepath, 'w')]: text mode, the encoding of the locale, universal
    newlines.  A file is its bytes and whether it can be opened for reading
    and for writing.  What depends on the platform is a parameter: the codec
    ([decode] and [encode], [None] when Python raises a Unicode error),
    what [sys.stdout] raises on a line, if anything, and [os.linesep].  A
    decoded text is a [document]: the [str], held as its UTF-8 bytes like
    the literals of the script.  A function returns the state it leaves and
    whether it returned or raised, so that what was written or printed
    before an exception stays visible. *)

Definition CR : ascii := ascii_of_nat 13.
Definition LF : ascii := ascii_of_nat 10.

(** Reading in text mode with [newline=None]: the decoder computes
    [output.replace("\r\n", "\n").replace("\r", "\n")]. *)
Definition universal_newlines (decoded : document) : document :=
  replace [CR] [LF] (replace [CR; LF] [LF] decoded).

(** Writing in text mode with [newline=None]: [text.replace("\n", os.linesep)]
    unless [os.linesep] is ["\n"]. *)
Definition write_newlines (linesep content : document) : document :=
  if decide (linesep = [LF]) then content else replace [LF] linesep content.

Record file := mkFile {
  raw : list ascii;
  readable : bool;
  writable : bool
}.

(** [OSError] stands for every refusal to open an existing path
    ([PermissionError], [IsADirectoryError], ...). *)
Inductive exception :=
| FileNotFoundError
| OSError
| UnicodeDecodeError
| UnicodeEncodeError.

Inductive outcome :=
| Returned
| Raised (e : exception).

Record run := mkRun {
  files : gmap string file;
  stdout : list string
}.

(** Sequencing: the next statement runs only if the previous one returned. *)
Definition and_then (r : run * outcome) (k : run → run * outcome)
  : run * outcome :=
  match r with
  | (w, Returned) => k w
  | (w, Raised e) => (w, Raised e)
  end.

Section Script.
Variable decode : list ascii → option document.
Variable encode : document → option (list ascii).
Variable stdout_error : string → option exception.
Variable linesep : document.

(** [print(line)]: the line goes to [sys.stdout], unless writing it there
    raises (a terminal whose encoding lacks a character of the line raises
    [UnicodeEncodeError], a closed pipe [OSError]). *)
Definition print (line : string) (w : run) : run * outcome :=
  match stdout_error line with
  | None => (mkRun (files w) (stdout w ++ [line]), Returned)
  | Some e => (w, Raised e)
  end.

(** [with open(filepath, 'r') as f: content = f.read()] on a file that
    exists. *)
Definition read_text (f : file) : exception + document :=
  if negb (readable f) then inl OSError
  else match decode (raw f) with
       | None => inl UnicodeDecodeError
       | Some decoded => inr (universal_newlines decoded)
       end.

(** [with open(filepath, 'w') as f: f.write(content)] on the file [f] that
    was read: opening truncates it, so a text that cannot be encoded leaves
    it empty. *)
Definition write_text (filepath : string) (f : file) (content : document)
    (w : run) : run * outcome :=
  if negb (writable f) then (w, Raised OSError)
  else match encode (write_newlines linesep content) with
       | None =>
           (mkRun (<[filepath := mkFile [] (readable f) (writable f)]> (files w))
                  (stdout w),
            Raised UnicodeEncodeError)
       | Some bytes =>
           (mkRun (<[filepath := mkFile bytes (readable f) (writable f)]>
                     (files w))
                  (stdout w),
            Returned)
       end.

(** Lines 6-156: read, the four edits, write, then print. *)
Definition modify_cluster_topics_v1 (filepath : string) (w : run)
  : run * outcome :=
  match files w !! filepath with
  | None => (w, Raised FileNotFoundError)
  | Some f =>
      match read_text f with
      | inl e => (w, Raised e)
      | inr content =>
          let content := patch_v1 content in
          and_then (write_text filepath f content w)
                   (print ("✓ Modified " +:+ filepath))
      end
  end.

(** Lines 158-252: read, the edits, print, then write. *)
Definition modify_cluster_topics_v2 (filepath : string) (w : run)
  : run * outcome :=
  match files w !! filepath with
  | None => (w, Raised FileNotFoundError)
  | Some f =>
      match read_text f with
      | inl e => (w, Raised e)
      | inr content =>
          let content := patch_v2 content in
          and_then (print ("✓ Modified " +:+ filepath) w)
                   (write_text filepath f content)
      end
  end.

(** [if __name__ == "__main__"]: the call on [src/cluster_topics_v2.rs] is
    commented out in the script. *)
Definition main (w : run) : run * outcome :=
  and_then (modify_cluster_topics_v1 "src/cluster_topics.rs" w)
           (print (nl +:+ "✅ All modifications complete!")).
End Script.

(** An example platform: a codec that takes every file of the examples as
    it is, a terminal that prints every line, and ["\n"] as line separator. *)
Definition plain_decode (bytes : list ascii) : option document := Some bytes.
Definition plain_encode (content : document) : option (list ascii) :=
  Some content.
Definition prints_all (line : string) : option exception := None.
Definition posix_linesep : document := [LF].

(** Another one: a terminal in an ASCII locale, on which [print] raises for
    a line with any other character, and ["\r\n"] as line separator. *)
Definition ascii_terminal (line : string) : option exception :=
  if forallb (λ c, nat_of_ascii c <? 128) (list_ascii_of_string line)
  then None
  else Some UnicodeEncodeError.
Definition windows_linesep : document := [CR; LF].

(** A run that starts with both Rust files present. *)
Definition both_files : run :=
  mkRun (<["src/cluster_topics.rs" := mkFile import_and_main true true]>
           (<["src/cluster_topics_v2.rs" := mkFile v2_target true true]> ∅))
        [].

(** ** The inserted Rust code: variant catalog and settings block

    [helper_function] and [new_main_start] are Rust; what they compute is
    embedded here.  Files are read through a store, and every file-system
    call and every [println!] is logged, so that "is never read" is a
    statement about the log. *)

Module Rust.

(** [Box<dyn std::error::Error>] as the code builds it. *)
Inductive error :=
| Message (msg : string)  (* from a [&str] or a [format!] string *)
| Io                      (* [fs::read_to_string] failed *)
| Json.                   (* [serde_json::from_str] failed *)

Inductive result (T : Type) :=
| Ok (v : T)
| Err (e : error).
Arguments Ok {T} _.
Arguments Err {T} _.

(** [VariantSettings], [VariantConfig], [VariantsConfig] and [Args] of
    [variant_structs]; [usize] values are only passed along, so they are
    unbounded naturals here, and [f64] is a binary64 float. *)
Record VariantSettings := {
  clusters : option N;
  outlier_threshold : option float;
  linkage_method : option string;
  use_relevance_weighting : option bool;
  use_llm_naming : option bool
}.

Record VariantConfig := {
  version : string;
  name : string;
  settings : VariantSettings
}.

Record VariantsConfig := {
  variants : gmap string VariantConfig
}.

Record Args := {
  variant : option string
}.

(** Modelled from the spec: the declaration of [struct Settings] and of the
    struct behind [settings.topic_clustering], which live in the patched
    Rust file and not in the script.  The shape is the one the expressions
    [settings.topic_clustering.as_ref().and_then(|s| s.clusters)] and its
    four siblings require: an optional block of optional fields. *)
Record TopicClustering := {
  base_clusters : option N;
  base_outlier_threshold : option float;
  base_linkage_method : option string;
  base_use_relevance_weighting : option bool;
  base_use_llm_naming : option bool
}.

Record Settings := {
  topic_clustering : option TopicClustering
}.

(** [Option::or], [Option::and_then], [Option::unwrap_or]. *)
Definition or {T} (a b : option T) : option T :=
  match a with
  | Some _ => a
  | None => b
  end.

Definition and_then {T U} (a : option T) (f : T → option U) : option U :=
  match a with
  | Some x => f x
  | None => None
  end.

Definition unwrap_or {T} (a : option T) (default : T) : T :=
  match a with
  | Some x => x
  | None => default
  end.

(** A path either holds text or exists without being readable as text. *)
Inductive node :=
| File (content : string)
| Unreadable.

Inductive event :=
| Exists (path : string)
| ReadToString (path : string)
| Println (line : string).

(** Computations that read the store, append to the log and may fail;
    [?] is the [Err] case of [bind]. *)
Definition M (T : Type) : Type := gmap string node → list event * result T.

Definition ret {T} (v : T) : M T := λ _, ([], Ok v).

Definition fail {T} (e : error) : M T := λ _, ([], Err e).

Definition bind {T U} (m : M T) (k : T → M U) : M U := λ fs,
  match m fs with
  | (log, Err e) => (log, Err e)
  | (log, Ok v) => let '(log', r) := k v fs in (log ++ log', r)
  end.

Notation "'let*' x := m 'in' k" := (bind m (λ x, k))
  (at level 10, x name, m at level 100, k at level 200).

Definition path_exists (path : string) : M bool := λ fs,
  ([Exists path], Ok (bool_decide (is_Some (fs !! path)))).

Definition read_to_string (path : string) : M string := λ fs,
  ([ReadToString path],
   match fs !! path with
   | Some (File content) => Ok content
   | _ => Err Io
   end).

Definition println (line : string) : M unit := λ _, ([Println line], Ok tt).

Definition ok_or_else {T} (a : option T) (e : unit → error) : M T :=
  match a with
  | Some v => ret v
  | None => fail (e tt)
  end.

Section Resolver.
(** [serde_json::from_str::<VariantsConfig>]: the JSON parser is a
    library; [None] is a parse or schema error. *)
Variable from_str : string → option VariantsConfig.

(** [load_variant_settings], lines 72-85. *)
Definition load_variant_settings (variant_name : string) : M VariantSettings :=
  let variants_path := "variants.json" in
  let* present := path_exists variants_path in
  if negb present then fail (Message "variants.json not found")
  else
    let* variants_content := read_to_string variants_path in
    let* variants_config :=
      match from_str variants_content with
      | Some c => ret c
      | None => fail Json
      end in
    let* variant :=
      ok_or_else (variants variants_config !! variant_name)
        (λ _, Message ("Variant '" +:+ variant_name
                       +:+ "' not found in variants.json")) in
    ret (settings variant).

(** The settings block of [main], lines 130-149: the tuple
    [(target_clusters, outlier_threshold, linkage_method,
    use_relevance_weighting, use_llm_naming)]. *)
Definition resolve_settings (args : Args) (settings : Settings)
  : M (N * float * string * bool * bool) :=
  match variant args with
  | Some variant_name =>
      let* _ := println ("📋 Loading variant: " +:+ variant_name +:+ nl) in
      let* variant_settings := load_variant_settings variant_name in
      ret ( unwrap_or (or (clusters variant_settings)
                          (and_then (topic_clustering settings) base_clusters))
                      256%N,
            unwrap_or (or (outlier_threshold variant_settings)
                          (and_then (topic_clustering settings) base_outlier_threshold))
                      0.7%float,
            unwrap_or (or (linkage_method variant_settings)
                          (and_then (topic_clustering settings) base_linkage_method))
                      "weighted",
            unwrap_or (or (use_relevance_weighting variant_settings)
                          (and_then (topic_clustering settings) base_use_relevance_weighting))
                      true,
            unwrap_or (or (use_llm_naming variant_settings)
                          (and_then (topic_clustering settings) base_use_llm_naming))
                      true )
  | None =>
      ret ( unwrap_or (and_then (topic_clustering settings) base_clusters) 256%N,
            unwrap_or (and_then (topic_clustering settings) base_outlier_threshold)
                      0.7%float,
            unwrap_or (and_then (topic_clustering settings) base_linkage_method)
                      "weighted",
            unwrap_or (and_then (topic_clustering settings) base_use_relevance_weighting)
                      true,
            unwrap_or (and_then (topic_clustering settings) base_use_llm_naming)
                      true )
  end.
End Resolver.

(** The resolver in the words of the specification: per field, the
    variant's value if a variant is present and sets the field, else the
    base value if set, else the default. *)
Definition coalesce {T} (variant_value base_value : option T) (default : T) : T :=
  match variant_value with
  | Some v => v
  | None => match base_value with
            | Some b => b
            | None => default
            end
  end.

Definition resolve_spec (variant : option VariantSettings) (base : Settings)
  : N * float * string * bool * bool :=
  let v {T} (F : VariantSettings → option T) : option T :=
    match variant with Some vs => F vs | None => None end in
  let b {T} (F : TopicClustering → option T) : option T :=
    match topic_clustering base with Some tc => F tc | None => None end in
  ( coalesce (v clusters) (b base_clusters) 256%N,
    coalesce (v outlier_threshold) (b base_outlier_threshold) 0.7%float,
    coalesce (v linkage_method) (b base_linkage_method) "weighted",
    coalesce (v use_relevance_weighting) (b base_use_relevance_weighting) true,
    coalesce (v use_llm_naming) (b base_use_llm_naming) true ).

(** Does the log mention a path? *)
Definition touches (path : string) (e : event) : bool :=
  match e with
  | Exists p | ReadToString p => bool_decide (p = path)
  | Println _ => false
  end.
(** Example data: a base settings file that only sets [clusters], a variant
    that only sets [outlierThreshold], and a catalog with the two variants
    [fast] and [accurate]. *)
Definition only_outlier_threshold : VariantSettings :=
  {| clusters := None; outlier_threshold := Some 0.9%float;
     linkage_method := None; use_relevance_weighting := None;
     use_llm_naming := None |}.

Definition only_clusters_64 : VariantSettings :=
  {| clusters := Some 64%N; outlier_threshold := None;
     linkage_method := None; use_relevance_weighting := None;
     use_llm_naming := None |}.

Definition base_clusters_100 : Settings :=
  {| topic_clustering :=
       Some {| base_clusters := Some 100%N; base_outlier_threshold := None;
               base_linkage_method := None;
               base_use_relevance_weighting := None;
               base_use_llm_naming := None |} |}.

Definition fast_accurate (version name : string) : VariantsConfig :=
  {| variants :=
       <["fast" := {| version := "1"; name := "Fast";
                      settings := only_clusters_64 |}]>
       (<["accurate" := {| version := version; name := name;
                           settings := only_outlier_threshold |}]> ∅) |}.

(** A store whose catalog file holds [content], and a parser that reads the
    catalog's metadata off the first character of the file. *)
Definition catalog_store (content : string) : gmap string node :=
  <["variants.json" := File content]> ∅.

Definition parse_example (content : string) : option VariantsConfig :=
  match content with
  | String "1" _ => Some (fast_accurate "1" "Accurate")
  | String "2" _ => Some (fast_accurate "2" "Renamed")
  | _ => None
  end.
End Rust.

(** More example data: a run whose Rust file has none of the anchors, stores
    with an unreadable catalog, catalogs with a single variant, and variants
    that set nothing or everything. *)
Definition unanchored_run : run :=
  mkRun (<["src/cluster_topics.rs" := mkFile already_calls true true]> ∅) [].

(** The same file with Windows line ends, and a v2 file that cannot be
    opened for writing. *)
Definition crlf_run : run :=
  mkRun (<["src/cluster_topics.rs"
           := mkFile (replace [LF] [CR; LF] already_calls) true true]> ∅) [].

Definition read_only_v2 : run :=
  mkRun (<["src/cluster_topics_v2.rs" := mkFile v2_target true false]> ∅) [].

(** Both files, the second one read-only. *)
Definition second_read_only : run :=
  mkRun (<["src/cluster_topics.rs" := mkFile import_and_main true true]>
           (<["src/cluster_topics_v2.rs" := mkFile v2_target true false]> ∅))
        [].

Definition unreadable_store : gmap string Rust.node :=
  <["variants.json" := Rust.Unreadable]> ∅.

Definition empty_overrides : Rust.VariantSettings :=
  {| Rust.clusters := None; Rust.outlier_threshold := None;
     Rust.linkage_method := None; Rust.use_relevance_weighting := None;
     Rust.use_llm_naming := None |}.

Definition all_overrides : Rust.VariantSettings :=
  {| Rust.clusters := Some 8%N; Rust.outlier_threshold := Some 0.5%float;
     Rust.linkage_method := Some "ward";
     Rust.use_relevance_weighting := Some false;
     Rust.use_llm_naming := Some false |}.

Definition empty_block : Rust.TopicClustering :=
  {| Rust.base_clusters := None; Rust.base_outlier_threshold := None;
     Rust.base_linkage_method := None;
     Rust.base_use_relevance_weighting := None;
     Rust.base_use_llm_naming := None |}.

Definition single_variant (key : string) (vs : Rust.VariantSettings)
  : Rust.VariantsConfig :=
  {| Rust.variants :=
       <[key := {| Rust.version := "1"; Rust.name := key;
                   Rust.settings := vs |}]> ∅ |}.

(** A parser that accepts every text as the given catalog. *)
Definition parse_as (config : Rust.VariantsConfig) (content : string)
  : option Rust.VariantsConfig := Some config.

(** * Properties *)

(** ** The scan of [replace] *)

Section PyStrFacts.
Context {A : Type} `{EqDecision A}.
Implicit Types (old new s d p q r u x y : list A).

Lemma startswith_prefix s d : startswith s d = true ↔ s `prefix_of` d.
Proof.
  revert d. induction s as [|a s IH]; intros d; simpl.
  - split; [intros _; apply prefix_nil | done].
  - destruct d as [|b d].
    + split; [done | intros Hp; by apply prefix_nil_not in Hp].
    + destruct (decide (a = b)) as [->|Hne].
      * rewrite IH. split; [apply prefix_cons | apply prefix_cons_inv_2].
      * split; [done | intros Hp; by apply prefix_cons_inv_1 in Hp].
Qed.

Lemma startswith_app s q : startswith s (s ++ q) = true.
Proof. apply startswith_prefix. by exists q. Qed.

Lemma startswith_false s d : startswith s d = false ↔ ¬ s `prefix_of` d.
Proof. rewrite <- startswith_prefix. by destruct (startswith s d). Qed.

Lemma occurs_here s q : occurs s (s ++ q).
Proof. by exists [], q. Qed.

Lemma occurs_cons s c d : occurs s d → occurs s (c :: d).
Proof. intros (p & q & ->). by exists (c :: p), q. Qed.

Lemma occurs_app_l s p d : occurs s d → occurs s (p ++ d).
Proof. intros (p' & q & ->). exists (p ++ p'), q. by rewrite <- app_assoc. Qed.

Lemma occurs_app_r s d q : occurs s d → occurs s (d ++ q).
Proof.
  intros (p & q' & ->). exists p, (q' ++ q). by rewrite <- !app_assoc.
Qed.

Lemma occurs_cons_inv s c d :
  occurs s (c :: d) → s `prefix_of` (c :: d) ∨ occurs s d.
Proof.
  intros ([|c' p] & q & Heq); simpl in Heq.
  - left. exists q. done.
  - right. injection Heq as -> ->. by exists p, q.
Qed.

Lemma occurs_nil_inv s : occurs s [] → s = [].
Proof.
  intros (p & q & Heq). symmetry in Heq.
  apply app_eq_nil in Heq as [_ Heq]. by apply app_eq_nil in Heq as [? _].
Qed.

Lemma contains_occurs s d : contains s d = true ↔ occurs s d.
Proof.
  induction d as [|c d IH]; simpl.
  - destruct (startswith s []) eqn:Hs.
    + apply startswith_prefix in Hs as [q ->]. split; [intros _|done].
      apply occurs_here.
    + split; [done|]. intros ->%occurs_nil_inv. done.
  - destruct (startswith s (c :: d)) eqn:Hs.
    + apply startswith_prefix in Hs as [q ->]. split; [intros _|done].
      apply occurs_here.
    + rewrite IH. split; [apply occurs_cons|].
      intros [Hp|Ho]%occurs_cons_inv; [|done].
      apply startswith_prefix in Hp. congruence.
Qed.

Lemma contains_false s d : contains s d = false ↔ ¬ occurs s d.
Proof. rewrite <- contains_occurs. by destruct (contains s d). Qed.

(** Skipping [k] characters is scanning the text without them. *)
Lemma replace_from_skip old new k d :
  replace_from old new k d = replace_from old new 0 (drop k d).
Proof.
  revert k. induction d as [|c d IH]; intros k.
  - by destruct k.
  - destruct k as [|k]; [done|]. simpl. apply IH.
Qed.

Lemma count_from_skip s k d : count_from s k d = count_from s 0 (drop k d).
Proof.
  revert k. induction d as [|c d IH]; intros k.
  - by destruct k.
  - destruct k as [|k]; [done|]. simpl. apply IH.
Qed.

(** The three equations of the scan. *)
Lemma replace_nil old new : old ≠ [] → replace old new [] = [].
Proof. by destruct old. Qed.

Lemma replace_match old new rest :
  old ≠ [] → replace old new (old ++ rest) = new ++ replace old new rest.
Proof.
  destruct old as [|a old]; [done|]. intros _.
  unfold replace. change ((a :: old) ++ rest) with (a :: (old ++ rest)).
  cbn [replace_from]. change (a :: (old ++ rest)) with ((a :: old) ++ rest).
  rewrite startswith_app. f_equal.
  rewrite replace_from_skip. simpl. rewrite Nat.sub_0_r.
  by rewrite drop_app_length.
Qed.

Lemma replace_step old new c d :
  old ≠ [] → ¬ old `prefix_of` (c :: d) →
  replace old new (c :: d) = c :: replace old new d.
Proof.
  destruct old as [|a old]; [done|]. intros _ Hp%startswith_false.
  unfold replace. cbn [replace_from]. by rewrite Hp.
Qed.

Lemma count_nil s : s ≠ [] → count s [] = 0.
Proof. by destruct s. Qed.

Lemma count_match s rest :
  s ≠ [] → count s (s ++ rest) = S (count s rest).
Proof.
  destruct s as [|a s]; [done|]. intros _.
  unfold count. change ((a :: s) ++ rest) with (a :: (s ++ rest)).
  cbn [count_from]. change (a :: (s ++ rest)) with ((a :: s) ++ rest).
  rewrite startswith_app. f_equal.
  rewrite count_from_skip. simpl. rewrite Nat.sub_0_r.
  by rewrite drop_app_length.
Qed.

Lemma count_step s c d :
  s ≠ [] → ¬ s `prefix_of` (c :: d) → count s (c :: d) = count s d.
Proof.
  destruct s as [|a s]; [done|]. intros _ Hp%startswith_false.
  unfold count. cbn [count_from]. by rewrite Hp.
Qed.

Lemma replace_scan old new d : old ≠ [] → scan old new d (replace old new d).
Proof.
  intros Hold. remember (length d) as n eqn:Hn. revert d Hn.
  induction (lt_wf n) as [n _ IH]. intros d ->.
  destruct d as [|c d].
  - rewrite replace_nil by done. constructor.
  - destruct (decide (old `prefix_of` (c :: d))) as [[rest Heq]|Hno].
    + rewrite Heq, replace_match by done. constructor.
      apply (IH (length rest)); [|done].
      apply (f_equal length) in Heq. rewrite length_app in Heq. simpl in Heq.
      destruct old; [done|]. simpl in *. lia.
    + rewrite replace_step by done. constructor; [done|].
      apply (IH (length d)); [simpl; lia | done].
Qed.
End PyStrFacts.

(** ** Absent anchors, first occurrences and lengths *)

Section ReplaceFacts.
Context {A : Type} `{EqDecision A}.
Implicit Types (old new s d p q r u x y : list A).

Lemma occurs_nil d : occurs [] d.
Proof. by exists [], d. Qed.

Lemma replace_absent old new d : ¬ occurs old d → replace old new d = d.
Proof.
  intros Hno. destruct (decide (old = [])) as [->|Hold].
  { destruct Hno. apply occurs_nil. }
  induction (replace_scan old new d Hold) as [|rest out _ _|c d out _ _ IH].
  - done.
  - destruct Hno. apply occurs_here.
  - f_equal. apply IH. intros Ho. apply Hno. by apply occurs_cons.
Qed.

Lemma first_at_tail old c p rest :
  first_at old (c :: p) rest → first_at old p rest.
Proof.
  intros Hf p' q' Heq. specialize (Hf (c :: p') q'). simpl in Hf.
  rewrite Heq in Hf. specialize (Hf eq_refl). lia.
Qed.

Lemma first_at_head old c p rest :
  first_at old (c :: p) rest → ¬ old `prefix_of` (c :: p ++ old ++ rest).
Proof.
  intros Hf [q' Heq]. specialize (Hf [] q'). simpl in Hf.
  specialize (Hf Heq). lia.
Qed.

Lemma replace_first_occurrence old new p rest :
  old ≠ [] → first_at old p rest →
  replace old new (p ++ old ++ rest) = p ++ new ++ replace old new rest.
Proof.
  intros Hold. induction p as [|c p IH]; intros Hf; simpl.
  - by apply replace_match.
  - rewrite replace_step; [|done|by apply first_at_head].
    f_equal. apply IH. by eapply first_at_tail.
Qed.

Lemma replace_first_unfold old new d :
  replace_first old new d =
    if startswith old d then new ++ drop (length old) d
    else match d with
         | [] => []
         | c :: d' => c :: replace_first old new d'
         end.
Proof. by destruct d. Qed.

Lemma replace_first_first_occurrence old new p rest :
  first_at old p rest →
  replace_first old new (p ++ old ++ rest) = p ++ new ++ rest.
Proof.
  induction p as [|c p IH]; intros Hf.
  - simpl. rewrite replace_first_unfold, startswith_app.
    by rewrite drop_app_length.
  - rewrite replace_first_unfold.
    apply first_at_head in Hf as Hno. apply startswith_false in Hno.
    simpl. simpl in Hno. rewrite Hno. f_equal. apply IH.
    by eapply first_at_tail.
Qed.

(** Every document that contains [old] splits at its first occurrence. *)
Lemma occurs_first_at old d :
  occurs old d → ∃ p rest, d = p ++ old ++ rest ∧ first_at old p rest.
Proof.
  induction d as [|c d IH]; intros Ho.
  - apply occurs_nil_inv in Ho as ->. exists [], []. split; [done|].
    intros p' q' _. simpl. lia.
  - destruct (decide (old `prefix_of` (c :: d))) as [[rest Heq]|Hno].
    + exists [], rest. split; [done|]. intros p' q' _. simpl. lia.
    + apply occurs_cons_inv in Ho as [Hp|Ho]; [done|].
      destruct (IH Ho) as (p & rest & -> & Hf).
      exists (c :: p), rest. split; [done|].
      intros [|c' p'] q' Heq; simpl in Heq.
      * destruct Hno. exists q'. done.
      * injection Heq as -> Heq. apply Hf in Heq. simpl. lia.
Qed.

(** Lengths: a replacement at least as long as the anchor never shortens
    the document, and a longer one lengthens it when the anchor occurs. *)
Lemma replace_length_le old new d :
  old ≠ [] → length old ≤ length new →
  length d ≤ length (replace old new d).
Proof.
  intros Hold Hlen.
  induction (replace_scan old new d Hold) as [|rest out _ IH|c d out _ _ IH].
  - done.
  - rewrite !length_app. lia.
  - simpl. lia.
Qed.

Lemma replace_length_lt old new d :
  old ≠ [] → length old < length new → occurs old d →
  length d < length (replace old new d).
Proof.
  intros Hold Hlen (p & rest & -> & Hf)%occurs_first_at.
  rewrite replace_first_occurrence by done.
  pose proof (replace_length_le old new rest Hold) as Hle.
  rewrite !length_app. lia.
Qed.

(** The output of a match contains the replacement. *)
Lemma occurs_replacement old new d :
  old ≠ [] → occurs old d → occurs new (replace old new d).
Proof.
  intros Hold (p & rest & -> & Hf)%occurs_first_at.
  rewrite replace_first_occurrence by done. by exists p, (replace old new rest).
Qed.
(** [count] finds every occurrence it can reach: one if the text occurs, two
    if it occurs twice without overlap. *)
Lemma count_first_occurrence s p rest :
  s ≠ [] → first_at s p rest →
  count s (p ++ s ++ rest) = S (count s rest).
Proof.
  intros Hs. induction p as [|c p IH]; intros Hf; simpl.
  - by apply count_match.
  - rewrite count_step; [|done|by apply first_at_head].
    apply IH. by eapply first_at_tail.
Qed.

Lemma count_occurs s d : s ≠ [] → occurs s d → 1 ≤ count s d.
Proof.
  intros Hs (p & rest & -> & Hf)%occurs_first_at.
  rewrite count_first_occurrence by done. lia.
Qed.

Lemma count_occurs_twice s d : s ≠ [] → occurs_twice s d → 2 ≤ count s d.
Proof.
  intros Hs (p & q & r & Hd).
  destruct (occurs_first_at s d) as (p0 & rest0 & Hd0 & Hf).
  { exists p, (q ++ s ++ r). done. }
  assert (length p0 ≤ length p) as Hlen.
  { apply (Hf p (q ++ s ++ r)). by rewrite <- Hd0. }
  assert (occurs s rest0) as Ho.
  { rewrite Hd0 in Hd. rewrite (app_assoc p0 s), (app_assoc p s) in Hd.
    apply app_eq_inv in Hd as [(k & Hk & Hrest)|(k & Hk & ->)].
    - apply (f_equal length) in Hk. rewrite !length_app in Hk.
      destruct k; [|simpl in Hk; lia]. simpl in Hrest. subst rest0.
      exists q, r. done.
    - apply occurs_app_l. exists q, r. done. }
  rewrite Hd0, count_first_occurrence by done.
  apply (count_occurs s rest0 Hs) in Ho. lia.
Qed.
End ReplaceFacts.

(** ** The patch engine on arbitrary rules *)

Section EngineFacts.
Context {A : Type} `{EqDecision A}.
Implicit Types (r : AnchorRule A) (rules : list (AnchorRule A)) (d : list A).

Lemma apply_rules_cons r rules d :
  apply_rules (r :: rules) d = apply_rules rules (apply_rule r d).
Proof. done. Qed.

Lemma apply_rules_absent rules d :
  (∀ r, r ∈ rules → ¬ occurs (anchor r) d) → apply_rules rules d = d.
Proof.
  induction rules as [|r rules IH]; intros Hno; [done|].
  rewrite apply_rules_cons. unfold apply_rule.
  rewrite replace_absent by (apply Hno; left).
  apply IH. intros r' Hin. apply Hno. by right.
Qed.

(** C4.  A rule whose anchor does not occur in the document returns the
    document unchanged, whatever its mode; [apply_rule] is a total function,
    so there is no failure case. *)
Theorem absent_anchor_is_noop r d :
  ¬ occurs (anchor r) d → apply_rule r d = d.
Proof. intros Hno. unfold apply_rule. by apply replace_absent. Qed.

(** C3.  If none of the anchors of a rule set occurs in the once-patched
    document, patching that document again changes nothing. *)
Theorem idempotent_when_anchors_vanish rules d :
  (∀ r, r ∈ rules → ¬ occurs (anchor r) (apply_rules rules d)) →
  apply_rules rules (apply_rules rules d) = apply_rules rules d.
Proof. apply apply_rules_absent. Qed.

(** C1, as the code has it.  Split the document at the first occurrence of
    a non-empty anchor: the rule rewrites that occurrence and is then
    applied to the rest of the text, so later occurrences are rewritten as
    well.  The result is that of a first-occurrence-only policy when the
    anchor does not occur again in the rest. *)
Theorem every_occurrence_is_rewritten r (p rest : list A) :
  anchor r ≠ [] → first_at (anchor r) p rest →
  apply_rule r (p ++ anchor r ++ rest)
    = p ++ replacement r ++ apply_rule r rest
  ∧ (¬ occurs (anchor r) rest →
     apply_rule r (p ++ anchor r ++ rest)
       = apply_rule_first r (p ++ anchor r ++ rest)).
Proof.
  intros Hne Hf. unfold apply_rule, apply_rule_first.
  rewrite replace_first_occurrence by done. split; [done|].
  intros Hno. rewrite replace_absent by done.
  by rewrite replace_first_first_occurrence.
Qed.
End EngineFacts.

Lemma absent_anchor_is_noop_witness :
  ¬ occurs (anchor import_rule) (text [ "fn main(){}" ])
  ∧ apply_rule import_rule (text [ "fn main(){}" ]) = text [ "fn main(){}" ].
Proof.
  assert (¬ occurs (anchor import_rule) (text [ "fn main(){}" ])) as Hno.
  { apply contains_false. vm_compute. reflexivity. }
  split; [exact Hno | exact (absent_anchor_is_noop import_rule _ Hno)].
Defined.

Lemma idempotent_when_anchors_vanish_witness :
  apply_rules [main_rule] (apply_rules [main_rule] old_main_start)
    = apply_rules [main_rule] old_main_start.
Proof.
  apply (idempotent_when_anchors_vanish [main_rule] old_main_start).
  intros r ->%list_elem_of_singleton.
  apply contains_false. vm_compute. reflexivity.
Defined.

Lemma every_occurrence_is_rewritten_witness :
  apply_rule import_rule two_imports
    = text [ "use indicatif::{ProgressBar, ProgressStyle};"
           ; "use clap::Parser;"
           ; "use indicatif::{ProgressBar, ProgressStyle};"
           ; "use clap::Parser;" ].
Proof.
  pose proof (every_occurrence_is_rewritten import_rule []
                (text [ ""; "use indicatif::{ProgressBar, ProgressStyle};" ]))
    as [Heq _].
  - vm_compute. discriminate.
  - intros p' q' _. simpl. lia.
  - etrans; [exact Heq|]. vm_compute. reflexivity.
Defined.

(** C1 as stated fails: with the import line twice in the document, both
    occurrences are rewritten, where a first-occurrence-only policy would
    leave the second one alone. *)
Lemma second_occurrence_is_rewritten_too :
  occurs_twice (anchor import_rule) two_imports
  ∧ apply_rule import_rule two_imports ≠ apply_rule_first import_rule two_imports
  ∧ count clap_import (apply_rule import_rule two_imports) = 2
  ∧ count clap_import (apply_rule_first import_rule two_imports) = 1.
Proof.
  split; [|split; [|split]].
  - exists [], (text [ ""; "" ]), []. vm_compute. reflexivity.
  - intros Heq. apply (f_equal length) in Heq. vm_compute in Heq. discriminate.
  - vm_compute. reflexivity.
  - vm_compute. reflexivity.
Qed.

(** C7.  The replace-span rule on the two-line document of the
    specification: the import line stays, [use clap::Parser;] follows it on
    the next line, and [clap::Parser] occurs once. *)
Theorem replace_span_example :
  let d := text [ "use indicatif::{ProgressBar, ProgressStyle};"
                ; "fn main(){}" ] in
  let out := apply_rule import_rule d in
  out = text [ "use indicatif::{ProgressBar, ProgressStyle};"
             ; "use clap::Parser;"
             ; "fn main(){}" ]
  ∧ count (text [ "clap::Parser" ]) out = 1
  ∧ startswith (text [ "use indicatif::{ProgressBar, ProgressStyle};"
                     ; "use clap::Parser;" ]) out = true.
Proof. vm_compute. done. Qed.

(** ** The settings resolver *)

Section ResolverFacts.
Import Rust.
Variable from_str : string → option VariantsConfig.
Implicit Types (fs : gmap string node) (base : Settings).

Lemma load_catalog_missing fs variant_name :
  fs !! "variants.json" = None →
  load_variant_settings from_str variant_name fs
    = ([Exists "variants.json"], Err (Message "variants.json not found")).
Proof.
  intros Hfs. unfold load_variant_settings, bind, path_exists.
  rewrite Hfs. rewrite bool_decide_false by (by intros [? ?]). done.
Qed.

Lemma load_variant_found fs content config variant_name v :
  fs !! "variants.json" = Some (File content) →
  from_str content = Some config →
  variants config !! variant_name = Some v →
  load_variant_settings from_str variant_name fs
    = ([Exists "variants.json"; ReadToString "variants.json"],
       Ok (settings v)).
Proof.
  intros Hfs Hparse Hv.
  unfold load_variant_settings, bind, path_exists, read_to_string.
  rewrite Hfs. rewrite bool_decide_true by eauto. simpl.
  rewrite Hfs, Hparse. simpl. rewrite Hv. done.
Qed.

Lemma load_variant_unknown fs content config variant_name :
  fs !! "variants.json" = Some (File content) →
  from_str content = Some config →
  variants config !! variant_name = None →
  load_variant_settings from_str variant_name fs
    = ([Exists "variants.json"; ReadToString "variants.json"],
       Err (Message ("Variant '" +:+ variant_name
                     +:+ "' not found in variants.json"))).
Proof.
  intros Hfs Hparse Hv.
  unfold load_variant_settings, bind, path_exists, read_to_string.
  rewrite Hfs. rewrite bool_decide_true by eauto. simpl.
  rewrite Hfs, Hparse. simpl. rewrite Hv. done.
Qed.

(** The block of [main] in terms of what [load_variant_settings] returns. *)
Lemma resolve_settings_none base fs :
  resolve_settings from_str {| variant := None |} base fs
    = ([], Ok (resolve_spec None base)).
Proof.
  unfold resolve_settings, resolve_spec, ret. simpl.
  by destruct (topic_clustering base).
Qed.

Lemma resolve_settings_loaded base fs variant_name log vs :
  load_variant_settings from_str variant_name fs = (log, Ok vs) →
  resolve_settings from_str {| variant := Some variant_name |} base fs
    = (Println ("📋 Loading variant: " +:+ variant_name +:+ nl) :: log ++ [],
       Ok (resolve_spec (Some vs) base)).
Proof.
  intros Hload. unfold resolve_settings, bind, println, ret. cbn [variant].
  rewrite Hload. cbn. do 2 f_equal. unfold resolve_spec.
  destruct vs as [[?|] [?|] [?|] [?|] [?|]], (topic_clustering base) as [tc|];
    reflexivity.
Qed.

Lemma resolve_settings_failed base fs variant_name log e :
  load_variant_settings from_str variant_name fs = (log, Err e) →
  resolve_settings from_str {| variant := Some variant_name |} base fs
    = (Println ("📋 Loading variant: " +:+ variant_name +:+ nl) :: log, Err e).
Proof.
  intros Hload. unfold resolve_settings, bind, println. cbn [variant].
  rewrite Hload. done.
Qed.
End ResolverFacts.

Lemma list_ascii_of_string_app (a b : string) :
  list_ascii_of_string (a +:+ b)
    = list_ascii_of_string a ++ list_ascii_of_string b.
Proof. induction a as [|c a IH]; simpl; [done | by rewrite IH]. Qed.

Section ResolverClaims.
Import Rust.
Variable from_str : string → option VariantsConfig.
Implicit Types (fs : gmap string node) (base : Settings).

(** C2.  Per field, the value is the variant's if a variant was loaded and
    sets the field, else the base settings' if set, else the hard-coded
    default ([resolve_spec] is this coalesce, field by field).  With base
    [{clusters: 100}] and a variant [{outlierThreshold: 0.9}] the result is
    clusters 100, outlierThreshold 0.9, linkageMethod "weighted", and the
    defaults [true] for the two flags. *)
Theorem per_field_precedence fs base :
  snd (resolve_settings from_str {| variant := None |} base fs)
    = Ok (resolve_spec None base)
  ∧ (∀ variant_name log vs,
       load_variant_settings from_str variant_name fs = (log, Ok vs) →
       snd (resolve_settings from_str {| variant := Some variant_name |} base fs)
         = Ok (resolve_spec (Some vs) base))
  ∧ (∀ variant_name log,
       load_variant_settings from_str variant_name fs
         = (log, Ok only_outlier_threshold) →
       snd (resolve_settings from_str {| variant := Some variant_name |}
              base_clusters_100 fs)
         = Ok (100%N, 0.9%float, "weighted", true, true)).
Proof.
  split; [|split].
  - by rewrite resolve_settings_none.
  - intros variant_name log vs Hload.
    by rewrite (resolve_settings_loaded _ _ _ _ _ _ Hload).
  - intros variant_name log Hload.
    by rewrite (resolve_settings_loaded _ _ _ _ _ _ Hload).
Qed.

(** C5.  A requested variant that the parsed catalog does not contain makes
    resolution fail with the message
    [Variant '<name>' not found in variants.json], which contains the
    requested name. *)
Theorem unknown_variant_is_reported fs base content config variant_name :
  fs !! "variants.json" = Some (File content) →
  from_str content = Some config →
  variants config !! variant_name = None →
  ∃ msg,
    snd (resolve_settings from_str {| variant := Some variant_name |} base fs)
      = Err (Message msg)
    ∧ msg = "Variant '" +:+ variant_name +:+ "' not found in variants.json"
    ∧ occurs (list_ascii_of_string variant_name) (list_ascii_of_string msg).
Proof.
  intros Hfs Hparse Hv. eexists. split; [|split; [reflexivity|]].
  - rewrite (resolve_settings_failed _ _ _ _ _ _
               (load_variant_unknown _ _ _ _ _ Hfs Hparse Hv)). done.
  - exists (list_ascii_of_string "Variant '"),
      (list_ascii_of_string "' not found in variants.json").
    by rewrite !list_ascii_of_string_app.
Qed.

(** C6.  With the catalog file absent, a requested variant fails with
    [variants.json not found]; with no variant requested the block succeeds
    from base settings and defaults and its log is empty, so the catalog is
    neither tested for existence nor read, whether it exists or not. *)
Theorem catalog_missing_only_matters_when_requested fs base :
  (∀ variant_name,
     fs !! "variants.json" = None →
     snd (resolve_settings from_str {| variant := Some variant_name |} base fs)
       = Err (Message "variants.json not found"))
  ∧ resolve_settings from_str {| variant := None |} base fs
      = ([], Ok (resolve_spec None base))
  ∧ Forall (λ e, touches "variants.json" e = false)
      (fst (resolve_settings from_str {| variant := None |} base fs)).
Proof.
  split; [|split].
  - intros variant_name Hfs.
    by rewrite (resolve_settings_failed _ _ _ _ _ _
                  (load_catalog_missing _ _ variant_name Hfs)).
  - apply resolve_settings_none.
  - rewrite resolve_settings_none. constructor.
Qed.

(** C8.  Two catalogs whose definitions of the requested variant have the
    same [settings], whatever their [version] and [name], give the same
    outcome: same log, same resolved tuple. *)
Theorem metadata_does_not_influence_resolution
    fs1 fs2 content1 content2 config1 config2 variant_name v1 v2 base :
  fs1 !! "variants.json" = Some (File content1) →
  fs2 !! "variants.json" = Some (File content2) →
  from_str content1 = Some config1 →
  from_str content2 = Some config2 →
  variants config1 !! variant_name = Some v1 →
  variants config2 !! variant_name = Some v2 →
  settings v1 = settings v2 →
  resolve_settings from_str {| variant := Some variant_name |} base fs1
    = resolve_settings from_str {| variant := Some variant_name |} base fs2
  ∧ snd (resolve_settings from_str {| variant := Some variant_name |} base fs1)
      = Ok (resolve_spec (Some (settings v1)) base).
Proof.
  intros Hfs1 Hfs2 Hp1 Hp2 Hv1 Hv2 Hsame.
  rewrite (resolve_settings_loaded _ _ _ _ _ _
             (load_variant_found _ _ _ _ _ _ Hfs1 Hp1 Hv1)).
  rewrite (resolve_settings_loaded _ _ _ _ _ _
             (load_variant_found _ _ _ _ _ _ Hfs2 Hp2 Hv2)).
  by rewrite Hsame.
Qed.
End ResolverClaims.

Lemma per_field_precedence_witness :
  snd (Rust.resolve_settings Rust.parse_example
         {| Rust.variant := Some "accurate" |} Rust.base_clusters_100
         (Rust.catalog_store "1"))
    = Rust.Ok (100%N, 0.9%float, "weighted", true, true).
Proof.
  destruct (per_field_precedence Rust.parse_example (Rust.catalog_store "1")
              Rust.base_clusters_100) as (_ & _ & Hexample).
  apply (Hexample "accurate"
           [Rust.Exists "variants.json"; Rust.ReadToString "variants.json"]).
  vm_compute. reflexivity.
Defined.

Lemma unknown_variant_is_reported_witness :
  ∃ msg,
    snd (Rust.resolve_settings Rust.parse_example
           {| Rust.variant := Some "nonexistent" |} Rust.base_clusters_100
           (Rust.catalog_store "1"))
      = Rust.Err (Rust.Message msg)
    ∧ msg = "Variant 'nonexistent' not found in variants.json"
    ∧ occurs (list_ascii_of_string "nonexistent") (list_ascii_of_string msg).
Proof.
  apply (unknown_variant_is_reported Rust.parse_example
           (Rust.catalog_store "1") Rust.base_clusters_100 "1"
           (Rust.fast_accurate "1" "Accurate") "nonexistent").
  - vm_compute. reflexivity.
  - reflexivity.
  - vm_compute. reflexivity.
Defined.

Lemma catalog_missing_only_matters_when_requested_witness :
  snd (Rust.resolve_settings Rust.parse_example
         {| Rust.variant := Some "fast" |} Rust.base_clusters_100 ∅)
    = Rust.Err (Rust.Message "variants.json not found")
  ∧ Rust.resolve_settings Rust.parse_example
      {| Rust.variant := None |} Rust.base_clusters_100 ∅
    = ([], Rust.Ok (100%N, 0.7%float, "weighted", true, true)).
Proof.
  destruct (catalog_missing_only_matters_when_requested Rust.parse_example ∅
              Rust.base_clusters_100) as (Hreq & Hnone & _).
  split.
  - apply (Hreq "fast"). vm_compute. reflexivity.
  - exact Hnone.
Defined.

Lemma metadata_does_not_influence_resolution_witness :
  Rust.resolve_settings Rust.parse_example
    {| Rust.variant := Some "accurate" |} Rust.base_clusters_100
    (Rust.catalog_store "1")
  = Rust.resolve_settings Rust.parse_example
      {| Rust.variant := Some "accurate" |} Rust.base_clusters_100
      (Rust.catalog_store "2").
Proof.
  refine (proj1 (metadata_does_not_influence_resolution Rust.parse_example
           (Rust.catalog_store "1") (Rust.catalog_store "2") "1" "2"
           (Rust.fast_accurate "1" "Accurate") (Rust.fast_accurate "2" "Renamed")
           "accurate"
           {| Rust.version := "1"; Rust.name := "Accurate";
              Rust.settings := Rust.only_outlier_threshold |}
           {| Rust.version := "2"; Rust.name := "Renamed";
              Rust.settings := Rust.only_outlier_threshold |}
           Rust.base_clusters_100 _ _ _ _ _ _ _));
    vm_compute; reflexivity.
Defined.

(** ** Occurrences that survive a replacement

    An occurrence of [s] is untouched by [replace old new] when [s] and [old]
    are [apart]; an occurrence of [old] followed by [t] becomes [new]
    followed by [t] when [old] is unbordered and no match can start in [t]. *)

Section OverlapFacts.
Context {A : Type} `{EqDecision A}.
Implicit Types (old new s t d p q r u x y : list A).

Lemma scan_fun old new d out :
  old ≠ [] → scan old new d out → out = replace old new d.
Proof.
  intros Hold Hs. induction Hs as [|rest out _ IH|c d out Hno _ IH].
  - by rewrite replace_nil.
  - rewrite replace_match by done. by f_equal.
  - rewrite replace_step by done. by f_equal.
Qed.

Lemma border_borderb x y : border x y → borderb x y = true.
Proof.
  intros (u & Hne & [k ->] & Hp). unfold borderb.
  induction k as [|c k IH]; simpl.
  - destruct u as [|a u]; [done|]. cbn [borderb_from].
    apply startswith_prefix in Hp. by rewrite Hp.
  - rewrite IH. apply orb_true_r.
Qed.

Lemma apart_inv s old :
  apart s old = true →
  ¬ border s old ∧ ¬ border old s ∧ ¬ occurs old s ∧ ¬ occurs s old.
Proof.
  unfold apart. rewrite !andb_true_iff, !negb_true_iff.
  intros [[[Hb1 Hb2] Hc1] Hc2]. repeat split.
  - intros Hb%border_borderb. congruence.
  - intros Hb%border_borderb. congruence.
  - by apply contains_false.
  - by apply contains_false.
Qed.

Lemma unbordered_inv old :
  unbordered old = true →
  old ≠ [] ∧ ∀ k u, k ≠ [] → u ≠ [] → old = k ++ u → ¬ u `prefix_of` old.
Proof.
  destruct old as [|a old]; [done|]. unfold unbordered.
  rewrite negb_true_iff. intros Hb. split; [done|].
  intros [|c k] u Hk Hu Heq Hp; [done|]. injection Heq as -> ->.
  assert (border (k ++ u) (c :: k ++ u)) as Hbd%border_borderb.
  { exists u. split; [done|]. split; [by exists k | done]. }
  unfold borderb in Hbd. congruence.
Qed.

(** No match of [old] starts inside [t], whatever follows. *)
Lemma no_match_inside old t q :
  ¬ occurs old t → ¬ border t old →
  ∀ u, u ≠ [] → u `suffix_of` t → ¬ old `prefix_of` (u ++ q).
Proof.
  intros Hno Hnb u Hne [k ->] [rest Heq].
  apply app_eq_inv in Heq as [(k' & -> & _)|(k' & -> & _)].
  - apply Hno. by exists k, k'.
  - apply Hnb. exists u. split; [done|]. split; [by exists k | by exists k'].
Qed.

Lemma replace_through old new t q :
  old ≠ [] →
  (∀ u, u ≠ [] → u `suffix_of` t → ¬ old `prefix_of` (u ++ q)) →
  replace old new (t ++ q) = t ++ replace old new q.
Proof.
  intros Hold. induction t as [|c t IH]; intros Hno; [done|]. simpl.
  rewrite replace_step; [|done|by apply (Hno (c :: t))].
  f_equal. apply IH. intros u Hne Hsuf. apply Hno; [done|].
  by apply suffix_cons_r.
Qed.

Lemma occurs_survives old new s d :
  old ≠ [] → apart s old = true → occurs s d → occurs s (replace old new d).
Proof.
  intros Hold (Hb1 & Hb2 & Hc1 & Hc2)%apart_inv (p & q & Hd).
  destruct (decide (s = [])) as [->|Hs]; [apply occurs_nil|].
  enough (∀ out, scan old new d out → ∀ p, d = p ++ s ++ q → occurs s out)
    as Hgen by (by eapply Hgen; [apply replace_scan|]).
  clear p Hd. intros out Hscan.
  induction Hscan as [|rest out Hscan IH|c d out Hno Hscan IH]; intros p Hd.
  - symmetry in Hd. apply app_eq_nil in Hd as [_ Hd].
    by apply app_eq_nil in Hd as [? _].
  - apply occurs_app_l.
    apply app_eq_inv in Hd as [(k & Hold' & Hsq)|(k & -> & ->)].
    + apply app_eq_inv in Hsq as [(k' & Hs' & Hrest)|(k' & Hk & _)].
      * destruct (decide (k = [])) as [->|Hk].
        { simpl in Hs'. subst k'. by apply (IH []). }
        destruct Hb2. exists k. split; [done|].
        split; [by exists p | by exists k'].
      * destruct Hc2. exists p, k'. by rewrite Hold', Hk.
    + by apply (IH k).
  - destruct p as [|c' p]; simpl in Hd.
    + apply scan_fun in Hscan as ->; [|done].
      rewrite <- replace_step by done. rewrite Hd.
      rewrite replace_through; [apply occurs_here|done|].
      by apply no_match_inside.
    + injection Hd as -> ->. apply occurs_cons. by apply (IH p).
Qed.

Lemma occurs_after_match old new t d :
  unbordered old = true → ¬ occurs old t → ¬ border t old →
  occurs (old ++ t) d → occurs (new ++ t) (replace old new d).
Proof.
  intros [Hold Hunb]%unbordered_inv Hno Hnb (p & q & Hd).
  enough (∀ out, scan old new d out →
                 ∀ p, d = p ++ (old ++ t) ++ q → occurs (new ++ t) out)
    as Hgen by (by eapply Hgen; [apply replace_scan|]).
  clear p Hd. intros out Hscan.
  induction Hscan as [|rest out Hscan IH|c d out Hnomatch Hscan IH];
    intros p Hd.
  - symmetry in Hd. apply app_eq_nil in Hd as [_ Hd].
    apply app_eq_nil in Hd as [Hd _]. by apply app_eq_nil in Hd as [? _].
  - apply app_eq_inv in Hd as [(k & Hold' & Hsq)|(k & -> & ->)].
    + destruct (decide (p = [])) as [->|Hp].
      * simpl in Hold'. subst k. rewrite <- app_assoc in Hsq.
        apply app_inv_head in Hsq as <-.
        apply scan_fun in Hscan as ->; [|done].
        rewrite replace_through; [|done|by apply no_match_inside].
        exists [], (replace old new q). by rewrite <- !app_assoc.
      * destruct (decide (k = [])) as [->|Hk].
        { apply occurs_app_l. apply (IH []). done. }
        destruct (Hunb p k Hp Hk Hold').
        rewrite <- app_assoc in Hsq.
        apply app_eq_inv in Hsq as [(k' & Hold'' & _)|(k' & Hk' & _)].
        -- by exists k'.
        -- apply (f_equal length) in Hold', Hk'.
           rewrite !length_app in Hold', Hk'.
           destruct p; [done|]. simpl in Hold'. lia.
    + apply occurs_app_l. by apply (IH k).
  - destruct p as [|c' p]; simpl in Hd.
    + destruct Hnomatch. rewrite Hd. rewrite <- app_assoc.
      by exists (t ++ q).
    + injection Hd as -> ->. apply occurs_cons. by apply (IH p).
Qed.

Lemma occurs_prefix s t d : occurs (s ++ t) d → occurs s d.
Proof.
  intros (p & q & ->). exists p, (t ++ q). by rewrite <- app_assoc.
Qed.
End OverlapFacts.

(** ** The v1 transformation applied twice *)

Lemma patch_v1_rules d : patch_v1 d = apply_rules rules_v1 d.
Proof. reflexivity. Qed.

Lemma patch_v2_rules d :
  patch_v2 d = apply_rules rules_v2 d.
Proof.
  unfold patch_v2, rules_v2, apply_rules. cbn [foldl].
  unfold apply_rule at 1. cbn [anchor replacement rule_mode insertion].
  destruct (contains start_time_stmt _) eqn:Hin; [reflexivity|].
  symmetry. apply replace_absent. by apply contains_false.
Qed.

(** The three later edits of v1 keep any text that is apart from their
    anchors. *)
Lemma patch_v1_keeps s d :
  apart s settings_struct_anchor = true →
  apart s main_anchor = true →
  apart s old_main_start = true →
  occurs s (replace indicatif_import indicatif_and_clap d) →
  occurs s (patch_v1 d).
Proof.
  intros H2 H3 H4 Ho. unfold patch_v1. cbv zeta.
  apply occurs_survives; [discriminate | exact H4 |].
  apply occurs_survives; [discriminate | exact H3 |].
  apply occurs_survives; [discriminate | exact H2 |]. exact Ho.
Qed.

Lemma patch_v1_length d :
  length (replace indicatif_import indicatif_and_clap d)
    ≤ length (patch_v1 d).
Proof.
  unfold patch_v1.
  etrans; [|apply replace_length_le;
            [discriminate | apply Nat.leb_le; vm_compute; reflexivity]].
  etrans; [|apply replace_length_le;
            [discriminate | apply Nat.leb_le; vm_compute; reflexivity]].
  apply replace_length_le;
    [discriminate | apply Nat.leb_le; vm_compute; reflexivity].
Qed.

Lemma import_twice_clap_twice d :
  occurs (indicatif_and_clap ++ newline_clap) d → occurs_twice clap_import d.
Proof.
  intros (p & q & ->).
  exists (p ++ text [ "use indicatif::{ProgressBar, ProgressStyle};"; "" ]),
    (text [ ""; "" ]), q.
  change (indicatif_and_clap ++ newline_clap)
    with (text [ "use indicatif::{ProgressBar, ProgressStyle};"; "" ]
          ++ clap_import ++ text [ ""; "" ] ++ clap_import).
  by rewrite <- !app_assoc.
Qed.

(** C9.  Whenever the import anchor occurs in the document, it still occurs
    after the v1 transformation; transforming the result again gives a
    different, longer document, in which [use clap::Parser;] occurs twice. *)
Theorem v1_twice_differs_from_once d :
  occurs indicatif_import d →
  occurs indicatif_import (patch_v1 d)
  ∧ patch_v1 (patch_v1 d) ≠ patch_v1 d
  ∧ occurs_twice clap_import (patch_v1 (patch_v1 d))
  ∧ 2 ≤ count clap_import (patch_v1 (patch_v1 d)).
Proof.
  enough (occurs indicatif_import d →
          occurs indicatif_import (patch_v1 d)
          ∧ patch_v1 (patch_v1 d) ≠ patch_v1 d
          ∧ occurs_twice clap_import (patch_v1 (patch_v1 d))) as Hmain.
  { intros Ho. destruct (Hmain Ho) as (H1 & H2 & H3).
    repeat split; [exact H1 | exact H2 | exact H3 |].
    apply count_occurs_twice; [discriminate | exact H3]. }
  intros Ho.
  assert (occurs indicatif_and_clap (patch_v1 d)) as Hpair.
  { apply patch_v1_keeps; [vm_compute; reflexivity..|].
    apply occurs_replacement; [discriminate | exact Ho]. }
  assert (occurs indicatif_import (patch_v1 d)) as Hagain.
  { apply (occurs_prefix indicatif_import newline_clap). exact Hpair. }
  split; [exact Hagain|]. split.
  - intros Heq. apply (f_equal length) in Heq.
    pose proof (patch_v1_length (patch_v1 d)) as Hle.
    assert (length (patch_v1 d)
            < length (replace indicatif_import indicatif_and_clap (patch_v1 d)))
      as Hlt.
    { apply replace_length_lt;
        [discriminate | apply Nat.ltb_lt; vm_compute; reflexivity
        | exact Hagain]. }
    lia.
  - apply import_twice_clap_twice.
    apply patch_v1_keeps; [vm_compute; reflexivity..|].
    apply (occurs_after_match indicatif_import indicatif_and_clap newline_clap).
    + vm_compute. reflexivity.
    + apply contains_false. vm_compute. reflexivity.
    + intros Hb%border_borderb. vm_compute in Hb. discriminate.
    + exact Hpair.
Qed.

(** ** Occurrences that stay guarded

    If every occurrence of [s] in the document is preceded by [g], this is
    still so after a replacement that is [guard_safe]. *)

Section GuardFacts.
Context {A : Type} `{EqDecision A}.
Implicit Types (old new s t d p q r u x y g : list A).

Lemma guarded_absent g s d : ¬ occurs s d → guarded g s d.
Proof. intros Hno p q Hd. destruct Hno. by exists p, q. Qed.



(** The output starts with (a tail of) [s] only if the input does. *)
Lemma prefix_replace_inv old new s d :
  old ≠ [] → ¬ border s new → ¬ occurs new s →
  ∀ t, t `suffix_of` s → t `prefix_of` replace old new d → t `prefix_of` d.
Proof.
  intros Hold Hb Hc.
  enough (∀ out, scan old new d out →
                 ∀ t, t `suffix_of` s → t `prefix_of` out → t `prefix_of` d)
    as Hgen by (apply Hgen, replace_scan, Hold).
  intros out Hscan.
  induction Hscan as [|rest out _ IH|c d out Hno _ IH]; intros t Hsuf Hpre.
  - done.
  - destruct (decide (t = [])) as [->|Ht]; [apply prefix_nil|].
    destruct Hpre as [k Hk].
    apply app_eq_inv in Hk as [(k' & Hnew & _)|(k' & Ht' & _)].
    + destruct Hb. exists t. split; [done|]. split; [done | by exists k'].
    + destruct Hc. destruct Hsuf as [k0 ->]. exists k0, k'. by rewrite Ht'.
  - destruct t as [|c' t]; [apply prefix_nil|].
    apply prefix_cons_inv_1 in Hpre as Hc'. subst c'.
    apply prefix_cons_inv_2 in Hpre. apply prefix_cons. apply IH; [|done].
    by eapply suffix_cons_l.
Qed.


End GuardFacts.

(** ** The v2 transformation and the entry point *)

Lemma patch_v2_unfold d :
  patch_v2 d
  = replace start_time_stmt args_and_start_time
      (replace main_anchor (helper_function ++ main_anchor)
         (replace settings_struct_anchor
            (variant_structs_v2 ++ settings_struct_anchor)
            (replace indicatif_import indicatif_and_clap d))).
Proof.
  unfold patch_v2. cbv zeta.
  destruct (contains start_time_stmt _) eqn:Hin; [reflexivity|].
  symmetry. apply replace_absent. apply contains_false. exact Hin.
Qed.







Lemma v1_twice_differs_from_once_witness :
  occurs indicatif_import import_and_main
  ∧ occurs indicatif_import (patch_v1 import_and_main)
  ∧ patch_v1 (patch_v1 import_and_main) ≠ patch_v1 import_and_main
  ∧ occurs_twice clap_import (patch_v1 (patch_v1 import_and_main))
  ∧ 2 ≤ count clap_import (patch_v1 (patch_v1 import_and_main)).
Proof.
  assert (occurs indicatif_import import_and_main) as Ho.
  { apply contains_occurs. vm_compute. reflexivity. }
  split; [exact Ho|]. exact (v1_twice_differs_from_once import_and_main Ho).
Defined.

(** On that document the second run leaves exactly two copies. *)
Example v1_twice_on_import_and_main :
  count clap_import (patch_v1 import_and_main) = 1
  ∧ count clap_import (patch_v1 (patch_v1 import_and_main)) = 2.
Proof. vm_compute. split; reflexivity. Qed.

(** * Further properties of the engine *)

Section OverlapTolerance.
Context {A : Type} `{EqDecision A}.
Implicit Types (old new s t d p q r u x y z g : list A).

Lemma endswith_suffix s d : endswith s d = true ↔ s `suffix_of` d.
Proof.
  unfold endswith. rewrite startswith_prefix. symmetry.
  apply suffix_prefix_reverse.
Qed.

Lemma starts_kept_prefix x y z :
  starts_kept_from x y z = true →
  ∀ u, u ≠ [] → u `suffix_of` x → u `prefix_of` y → u `prefix_of` z.
Proof.
  induction x as [|c x IH]; cbn [starts_kept_from].
  - intros _ u Hu Hsuf. apply suffix_nil_inv in Hsuf. done.
  - rewrite andb_true_iff, orb_true_iff, negb_true_iff.
    intros [Hhere Hrest] u Hu Hsuf Hpre.
    destruct u as [|a u]; [done|].
    apply suffix_cons_inv in Hsuf as [Heq|Hsuf]; [|by apply IH].
    rewrite Heq in *.
    destruct Hhere as [Hno|Hyes]; [|by apply startswith_prefix].
    apply startswith_false in Hno. done.
Qed.

Lemma ends_kept_suffix x y z :
  ends_kept_from x y z = true →
  ∀ u, u ≠ [] → u `suffix_of` x → u `prefix_of` y → u `suffix_of` z.
Proof.
  induction x as [|c x IH]; cbn [ends_kept_from].
  - intros _ u Hu Hsuf. apply suffix_nil_inv in Hsuf. done.
  - rewrite andb_true_iff, orb_true_iff, negb_true_iff.
    intros [Hhere Hrest] u Hu Hsuf Hpre.
    destruct u as [|a u]; [done|].
    apply suffix_cons_inv in Hsuf as [Heq|Hsuf]; [|by apply IH].
    rewrite Heq in *.
    destruct Hhere as [Hno|Hyes]; [|by apply endswith_suffix].
    apply startswith_false in Hno. done.
Qed.

(** The scan of [t ++ q] emits [t] first when every match that starts in
    [t] is replaced by a text that begins like it. *)
Lemma replace_keeps_prefix old new s :
  old ≠ [] → ¬ occurs old s →
  (∀ u, u ≠ [] → u `suffix_of` s → u `prefix_of` old → u `prefix_of` new) →
  ∀ t q, t `suffix_of` s → t `prefix_of` replace old new (t ++ q).
Proof.
  intros Hold Hno Hkept t. induction t as [|c t IH]; intros q Hsuf.
  - apply prefix_nil.
  - destruct (decide (old `prefix_of` (c :: t) ++ q)) as [[rest Heq]|Hnomatch].
    + rewrite Heq, replace_match by done. apply prefix_app_r.
      apply app_eq_inv in Heq as [(k & Ht & _)|(k & Hold' & _)].
      * destruct Hno. destruct Hsuf as [k0 ->]. exists k0, k. by rewrite Ht.
      * apply Hkept; [done | done | by exists k].
    + simpl. rewrite replace_step by done. apply prefix_cons. apply IH.
      by eapply suffix_cons_l.
Qed.

Lemma occurs_survives_gen old new s d :
  old ≠ [] → ¬ occurs old s → ¬ occurs s old →
  (∀ u, u ≠ [] → u `suffix_of` s → u `prefix_of` old → u `prefix_of` new) →
  (∀ u, u ≠ [] → u `suffix_of` old → u `prefix_of` s → u `suffix_of` new) →
  occurs s d → occurs s (replace old new d).
Proof.
  intros Hold Hc1 Hc2 Hstart Hend (p & q & Hd).
  enough (∀ out, scan old new d out → ∀ p, d = p ++ s ++ q → occurs s out)
    as Hgen by (by eapply Hgen; [apply replace_scan|]).
  clear p Hd. intros out Hscan.
  induction Hscan as [|rest out Hscan IH|c d out Hno Hscan IH]; intros p Hd.
  - symmetry in Hd. apply app_eq_nil in Hd as [_ Hd].
    apply app_eq_nil in Hd as [-> _]. apply occurs_nil.
  - apply app_eq_inv in Hd as [(k & Hold' & Hsq)|(k & -> & ->)].
    + apply app_eq_inv in Hsq as [(k' & Hs' & Hrest)|(k' & Hk & _)].
      * destruct (decide (k = [])) as [->|Hk].
        { simpl in Hs'. subst k'. apply occurs_app_l. by apply (IH []). }
        destruct (Hend k Hk) as [n Hn]; [by exists p | by exists k' |].
        apply scan_fun in Hscan as ->; [|done].
        destruct (replace_keeps_prefix old new s Hold Hc1 Hstart k' q)
          as [z Hz]; [by exists k|].
        rewrite Hrest, Hz, Hn. exists n, z. rewrite Hs'.
        by rewrite <- !app_assoc.
      * destruct Hc2. exists p, k'. by rewrite Hold', Hk.
    + apply occurs_app_l. by apply (IH k).
  - destruct p as [|c' p]; simpl in Hd.
    + apply scan_fun in Hscan as ->; [|done].
      rewrite <- replace_step by done. rewrite Hd.
      destruct (replace_keeps_prefix old new s Hold Hc1 Hstart s q)
        as [z ->]; [done|]. apply occurs_here.
    + injection Hd as -> ->. apply occurs_cons. by apply (IH p).
Qed.

Lemma survives_occurs old new s d :
  old ≠ [] → survives s old new = true →
  occurs s d → occurs s (replace old new d).
Proof.
  intros Hold. unfold survives. rewrite !andb_true_iff, !negb_true_iff.
  intros [[[Hc1 Hc2] Hst] Hen]. apply occurs_survives_gen.
  - done.
  - by apply contains_false.
  - by apply contains_false.
  - by apply starts_kept_prefix.
  - by apply ends_kept_suffix.
Qed.

(** The output starts with a tail of [s] only if the input does, also when
    [new] begins like [old]. *)
Lemma prefix_replace_inv_gen old new s d :
  old ≠ [] → ¬ occurs new s →
  (∀ u, u ≠ [] → u `suffix_of` s → u `prefix_of` new → u `prefix_of` old) →
  ∀ t, t `suffix_of` s → t `prefix_of` replace old new d → t `prefix_of` d.
Proof.
  intros Hold Hc Hkept.
  enough (∀ out, scan old new d out →
                 ∀ t, t `suffix_of` s → t `prefix_of` out → t `prefix_of` d)
    as Hgen by (apply Hgen, replace_scan, Hold).
  intros out Hscan.
  induction Hscan as [|rest out _ IH|c d out Hno _ IH]; intros t Hsuf Hpre.
  - done.
  - destruct (decide (t = [])) as [->|Ht]; [apply prefix_nil|].
    destruct Hpre as [k Hk].
    apply app_eq_inv in Hk as [(k' & Hnew & _)|(k' & Ht' & _)].
    + apply prefix_app_r. apply Hkept; [done | done | by exists k'].
    + destruct Hc. destruct Hsuf as [k0 ->]. exists k0, k'. by rewrite Ht'.
  - destruct t as [|c' t]; [apply prefix_nil|].
    apply prefix_cons_inv_1 in Hpre as Hc'. subst c'.
    apply prefix_cons_inv_2 in Hpre. apply prefix_cons. apply IH; [|done].
    by eapply suffix_cons_l.
Qed.

Lemma no_new_occurrence old new s d :
  old ≠ [] → ¬ occurs s new → ¬ occurs new s →
  (∀ u, u ≠ [] → u `suffix_of` s → u `prefix_of` new → u `prefix_of` old) →
  (∀ u, u ≠ [] → u `suffix_of` new → u `prefix_of` s → u `suffix_of` old) →
  ¬ occurs s d → ¬ occurs s (replace old new d).
Proof.
  intros Hold Hc1 Hc2 Hstart Hend.
  enough (∀ out, scan old new d out → ¬ occurs s d → ¬ occurs s out)
    as Hgen by (apply Hgen, replace_scan, Hold).
  intros out Hscan.
  induction Hscan as [|rest out Hscan IH|c d out Hno Hscan IH];
    intros Habs Hocc.
  - done.
  - destruct Hocc as (P & Q & HP).
    assert (¬ occurs s rest) as Hrest.
    { intros Ho. apply Habs. by apply occurs_app_l. }
    apply app_eq_inv in HP as [(k & Hnew & HsQ)|(k & _ & Hout)].
    + apply app_eq_inv in HsQ as [(k' & Hs' & Hout)|(k' & Hk & _)].
      * destruct (decide (k = [])) as [->|Hk].
        { simpl in Hs'. subst k'. apply (IH Hrest). by exists [], Q. }
        destruct (Hend k Hk) as [o Ho]; [by exists P | by exists k' |].
        apply scan_fun in Hscan as Hfun; [|done].
        destruct (prefix_replace_inv_gen old new s rest Hold Hc2 Hstart k')
          as [z Hz]; [by exists k | rewrite <- Hfun; by exists Q |].
        apply Habs. exists o, z. rewrite Ho, Hz, Hs'.
        by rewrite <- !app_assoc.
      * apply Hc1. exists P, k'. by rewrite Hnew, Hk.
    + apply (IH Hrest). by exists k, Q.
  - apply occurs_cons_inv in Hocc as [Hpre|Ho].
    + apply Habs. apply scan_fun in Hscan as ->; [|done].
      rewrite <- replace_step in Hpre by done.
      destruct (prefix_replace_inv_gen old new s (c :: d) Hold Hc2 Hstart s)
        as [z ->]; [done | done |]. apply occurs_here.
    + apply IH; [|done]. intros Ho'. apply Habs. by apply occurs_cons.
Qed.

Lemma not_created_absent old new s d :
  old ≠ [] → not_created s old new = true →
  ¬ occurs s d → ¬ occurs s (replace old new d).
Proof.
  intros Hold. unfold not_created. rewrite !andb_true_iff, !negb_true_iff.
  intros [[[Hc1 Hc2] Hst] Hen]. apply no_new_occurrence.
  - done.
  - by apply contains_false.
  - by apply contains_false.
  - by apply starts_kept_prefix.
  - by apply ends_kept_suffix.
Qed.

(** When [old] and [new] are apart, no occurrence of [old] is left. *)
Lemma anchor_vanishes old new d :
  old ≠ [] → apart old new = true → ¬ occurs old (replace old new d).
Proof.
  intros Hold (Hb1 & Hb2 & Hc1 & Hc2)%apart_inv.
  enough (∀ out, scan old new d out → ¬ occurs old out)
    as Hgen by (apply Hgen, replace_scan, Hold).
  intros out Hscan.
  induction Hscan as [|rest out Hscan IH|c d out Hno Hscan IH]; intros Ho.
  - by apply occurs_nil_inv in Ho.
  - destruct Ho as (P & Q & HP).
    apply app_eq_inv in HP as [(k & Hnew & HsQ)|(k & _ & Hout)].
    + apply app_eq_inv in HsQ as [(k' & Hs' & Hout)|(k' & Hk & _)].
      * destruct (decide (k = [])) as [->|Hk].
        { simpl in Hs'. subst k'. apply IH. by exists [], Q. }
        apply Hb2. exists k. split; [done|].
        split; [by exists P | by exists k'].
      * apply Hc2. exists P, k'. by rewrite Hnew, Hk.
    + apply IH. by exists k, Q.
  - apply occurs_cons_inv in Ho as [Hpre|Ho]; [|done].
    apply Hno. apply scan_fun in Hscan as ->; [|done].
    rewrite <- replace_step in Hpre by done.
    by apply (prefix_replace_inv old new old (c :: d) Hold Hb1 Hc1 old).
Qed.
End OverlapTolerance.

(** ** Lengths, counts and repeated application *)

Section Accounting.
Context {A : Type} `{EqDecision A}.
Implicit Types (old new s t d p q u : list A) (r : AnchorRule A).

Lemma occurs_suffix s t d : occurs (t ++ s) d → occurs s d.
Proof.
  intros (p & q & ->). exists (p ++ t), q. by rewrite <- !app_assoc.
Qed.

Lemma count_scan old new d out :
  old ≠ [] → scan old new d out →
  length out + count old d * length old = length d + count old d * length new.
Proof.
  intros Hold Hscan.
  induction Hscan as [|rest out _ IH|c d out Hno _ IH].
  - rewrite count_nil by done. simpl. lia.
  - rewrite count_match by done. rewrite !length_app. lia.
  - rewrite count_step by done. simpl. lia.
Qed.

(** [t ++ old] in the input becomes [t ++ new] when no match can touch [t]. *)
Lemma replace_before_match old new t q :
  unbordered old = true → ¬ occurs old t →
  replace old new (t ++ old ++ q) = t ++ new ++ replace old new q.
Proof.
  intros [Hold Hunb]%unbordered_inv Hno.
  rewrite replace_through; [by rewrite replace_match|done|].
  intros u Hu [k0 ->] [rest Heq].
  apply app_eq_inv in Heq as [(k & Hu' & _)|(k & Hold' & Hoq)].
  - apply Hno. exists k0, k. by rewrite Hu'.
  - destruct (decide (k = [])) as [->|Hk].
    { rewrite app_nil_r in Hold'. apply Hno. exists k0, []. rewrite Hold'.
      by rewrite app_nil_r. }
    apply (Hunb u k Hu Hk Hold').
    apply app_eq_inv in Hoq as [(k' & Hold'' & _)|(k' & Hk' & _)].
    + by exists k'.
    + apply (f_equal length) in Hold', Hk'. rewrite !length_app in Hold', Hk'.
      destruct u; [done|]. simpl in Hold'. lia.
Qed.

Lemma occurs_before_match old new t d :
  unbordered old = true → ¬ occurs old t → ¬ border old t →
  occurs (t ++ old) d → occurs (t ++ new) (replace old new d).
Proof.
  intros Hunb Hno Hnb (p & q & Hd).
  destruct (unbordered_inv old Hunb) as [Hold Hself].
  destruct (decide (t = [])) as [->|Ht].
  { simpl. apply occurs_replacement; [done|]. exists p, q. by rewrite Hd. }
  enough (∀ out, scan old new d out →
                 ∀ p, d = p ++ (t ++ old) ++ q → occurs (t ++ new) out)
    as Hgen by (by eapply Hgen; [apply replace_scan|]).
  clear p Hd. intros out Hscan.
  induction Hscan as [|rest out Hscan IH|c d out Hnomatch Hscan IH];
    intros p Hd.
  - symmetry in Hd. apply app_eq_nil in Hd as [_ Hd].
    apply app_eq_nil in Hd as [Hd _]. by apply app_eq_nil in Hd as [? _].
  - apply app_eq_inv in Hd as [(k & Hold' & Hsq)|(k & -> & ->)].
    + destruct (decide (k = [])) as [->|Hk].
      { apply occurs_app_l. apply (IH []). done. }
      exfalso. rewrite <- app_assoc in Hsq.
      apply app_eq_inv in Hsq as [(k' & Ht' & _)|(k' & Hk' & Hoq)].
      * apply Hnb. exists k. split; [done|].
        split; [by exists p | by exists k'].
      * destruct (decide (k' = [])) as [->|Hk'e].
        { rewrite app_nil_r in Hk'. subst k. apply Hnb. exists t.
          split; [done|]. split; [by exists p | done]. }
        apply (Hself (p ++ t) k').
        -- destruct p; [by destruct t | done].
        -- done.
        -- rewrite Hold', Hk'. by rewrite <- app_assoc.
        -- apply app_eq_inv in Hoq as [(z & Hold'' & _)|(z & Hz & _)].
           ++ by exists z.
           ++ apply (f_equal length) in Hold', Hk', Hz.
              rewrite !length_app in Hold', Hk', Hz.
              destruct t; [done|]. simpl in Hk'. lia.
    + apply occurs_app_l. by apply (IH k).
  - destruct p as [|c' p]; simpl in Hd.
    + apply scan_fun in Hscan as ->; [|done].
      rewrite <- replace_step by done. rewrite Hd, <- app_assoc.
      rewrite replace_before_match by done.
      exists [], (replace old new q). by rewrite <- !app_assoc.
    + injection Hd as -> ->. apply occurs_cons. by apply (IH p).
Qed.
End Accounting.

Section EngineExtras.
Context {A : Type} `{EqDecision A}.
Implicit Types (r : AnchorRule A) (d : list A).

(** X1.  Applying a rule changes the length of the document by the number of
    occurrences [str.count] reports times the difference between the
    replacement and the anchor. *)
Theorem rule_length_accounting r d :
  anchor r ≠ [] →
  length (apply_rule r d) + count (anchor r) d * length (anchor r)
  = length d + count (anchor r) d * length (replacement r).
Proof.
  intros Hne. unfold apply_rule. apply count_scan; [done|].
  by apply replace_scan.
Qed.

Lemma insert_rule_longer r :
  rule_mode r ≠ replace_span → insertion r ≠ [] →
  length (anchor r) < length (replacement r)
  ∧ ∀ d, occurs (replacement r) d → occurs (anchor r) d.
Proof.
  intros Hmode Hins. unfold replacement.
  assert (0 < length (insertion r)) as Hlen.
  { destruct (insertion r); [done | simpl; lia]. }
  destruct (rule_mode r); [| |done].
  - rewrite length_app. split; [lia|]. intros d. apply occurs_prefix.
  - rewrite length_app. split; [lia|]. intros d. apply occurs_suffix.
Qed.

(** X2.  An append-after or insert-before rule that inserts something leaves its
    anchor in the document, so it fires again on its own output: applying it
    a second time gives a longer, different document. *)
Theorem insert_rule_fires_again r d :
  rule_mode r ≠ replace_span → anchor r ≠ [] → insertion r ≠ [] →
  occurs (anchor r) d →
  occurs (anchor r) (apply_rule r d)
  ∧ length (apply_rule r d) < length (apply_rule r (apply_rule r d))
  ∧ apply_rule r (apply_rule r d) ≠ apply_rule r d.
Proof.
  intros Hmode Hne Hins Ho.
  destruct (insert_rule_longer r Hmode Hins) as [Hlen Hin].
  assert (occurs (anchor r) (apply_rule r d)) as Hagain.
  { apply Hin. unfold apply_rule. by apply occurs_replacement. }
  assert (length (apply_rule r d) < length (apply_rule r (apply_rule r d)))
    as Hlt.
  { unfold apply_rule at 2. by apply replace_length_lt. }
  split; [done|]. split; [done|].
  intros Heq. rewrite Heq in Hlt. lia.
Qed.
End EngineExtras.

Lemma rule_length_accounting_witness :
  length (apply_rule import_rule two_imports) + 2 * 44 = 89 + 2 * 62.
Proof.
  exact (rule_length_accounting import_rule two_imports
           ltac:(discriminate)).
Defined.

Lemma insert_rule_fires_again_witness :
  occurs indicatif_import (apply_rule import_append_rule import_and_main)
  ∧ length (apply_rule import_append_rule import_and_main)
    < length (apply_rule import_append_rule
                (apply_rule import_append_rule import_and_main))
  ∧ apply_rule import_append_rule
      (apply_rule import_append_rule import_and_main)
    ≠ apply_rule import_append_rule import_and_main.
Proof.
  apply (insert_rule_fires_again import_append_rule import_and_main).
  - discriminate.
  - discriminate.
  - discriminate.
  - apply contains_occurs. vm_compute. reflexivity.
Defined.

(** ** Which documents the transformations change, and when a second run
       changes them again *)

Ltac by_computation := vm_compute; reflexivity.

Ltac longer_replacement :=
  apply replace_length_le; [discriminate | apply Nat.leb_le; by_computation].

Ltac strictly_longer H :=
  apply replace_length_lt;
    [discriminate | apply Nat.ltb_lt; by_computation | exact H].

Ltac still_there H :=
  apply survives_occurs; [discriminate | by_computation | exact H].

Lemma patch_v1_unfold d :
  patch_v1 d
  = replace old_main_start new_main_start
      (replace main_anchor (helper_function ++ main_anchor)
         (replace settings_struct_anchor
            (variant_structs ++ settings_struct_anchor)
            (replace indicatif_import indicatif_and_clap d))).
Proof. reflexivity. Qed.

Lemma patch_v1_grows d :
  occurs indicatif_import d ∨ occurs settings_struct_anchor d
  ∨ occurs main_anchor d ∨ occurs old_main_start d →
  length d < length (patch_v1 d).
Proof.
  intros Hany. rewrite patch_v1_unfold.
  set (d1 := replace indicatif_import indicatif_and_clap d).
  set (d2 := replace settings_struct_anchor _ d1).
  set (d3 := replace main_anchor _ d2).
  set (d4 := replace old_main_start _ d3).
  assert (length d ≤ length d1) as L1 by (subst d1; longer_replacement).
  assert (length d1 ≤ length d2) as L2 by (subst d2; longer_replacement).
  assert (length d2 ≤ length d3) as L3 by (subst d3; longer_replacement).
  assert (length d3 ≤ length d4) as L4 by (subst d4; longer_replacement).
  destruct Hany as [H|[H|[H|H]]].
  - assert (length d < length d1) by (subst d1; strictly_longer H). lia.
  - assert (occurs settings_struct_anchor d1) as H1
      by (subst d1; still_there H).
    assert (length d1 < length d2) by (subst d2; strictly_longer H1). lia.
  - assert (occurs main_anchor d1) as H1 by (subst d1; still_there H).
    assert (occurs main_anchor d2) as H2 by (subst d2; still_there H1).
    assert (length d2 < length d3) by (subst d3; strictly_longer H2). lia.
  - assert (occurs old_main_start d1) as H1 by (subst d1; still_there H).
    assert (occurs old_main_start d2) as H2 by (subst d2; still_there H1).
    assert (occurs old_main_start d3) as H3 by (subst d3; still_there H2).
    assert (length d3 < length d4) by (subst d4; strictly_longer H3). lia.
Qed.

Lemma patch_v1_anchors_stay d :
  (occurs indicatif_import d → occurs indicatif_import (patch_v1 d))
  ∧ (occurs settings_struct_anchor d →
     occurs settings_struct_anchor (patch_v1 d))
  ∧ (occurs main_anchor d → occurs main_anchor (patch_v1 d)).
Proof.
  rewrite patch_v1_unfold.
  set (d1 := replace indicatif_import indicatif_and_clap d).
  set (d2 := replace settings_struct_anchor _ d1).
  set (d3 := replace main_anchor _ d2).
  split; [|split]; intros H.
  - assert (occurs indicatif_import d1) as H1.
    { apply (occurs_prefix indicatif_import newline_clap).
      subst d1. apply occurs_replacement; [discriminate | exact H]. }
    assert (occurs indicatif_import d2) as H2 by (subst d2; still_there H1).
    assert (occurs indicatif_import d3) as H3 by (subst d3; still_there H2).
    still_there H3.
  - assert (occurs settings_struct_anchor d1) as H1
      by (subst d1; still_there H).
    assert (occurs settings_struct_anchor d2) as H2.
    { apply (occurs_suffix settings_struct_anchor variant_structs).
      subst d2. apply occurs_replacement; [discriminate | exact H1]. }
    assert (occurs settings_struct_anchor d3) as H3
      by (subst d3; still_there H2).
    still_there H3.
  - assert (occurs main_anchor d1) as H1 by (subst d1; still_there H).
    assert (occurs main_anchor d2) as H2 by (subst d2; still_there H1).
    assert (occurs main_anchor d3) as H3.
    { apply (occurs_suffix main_anchor helper_function).
      subst d3. apply occurs_replacement; [discriminate | exact H2]. }
    still_there H3.
Qed.

Lemma patch_v1_only_main_edit d :
  ¬ occurs indicatif_import d → ¬ occurs settings_struct_anchor d →
  ¬ occurs main_anchor d →
  patch_v1 d = replace old_main_start new_main_start d.
Proof.
  intros H1 H2 H3. rewrite patch_v1_unfold.
  rewrite (replace_absent indicatif_import _ d H1).
  rewrite (replace_absent settings_struct_anchor _ d H2).
  rewrite (replace_absent main_anchor _ d H3). reflexivity.
Qed.

Lemma main_edit_vanishes d :
  ¬ occurs old_main_start (replace old_main_start new_main_start d).
Proof. apply anchor_vanishes; [discriminate | by_computation]. Qed.

Lemma patch_v1_fixed_iff d :
  patch_v1 d = d
  ↔ ¬ occurs indicatif_import d ∧ ¬ occurs settings_struct_anchor d
    ∧ ¬ occurs main_anchor d ∧ ¬ occurs old_main_start d.
Proof.
  split.
  - intros Heq. pose proof (patch_v1_grows d) as Hg. rewrite Heq in Hg.
    repeat split; intros Ho.
    + specialize (Hg (or_introl Ho)). lia.
    + specialize (Hg (or_intror (or_introl Ho))). lia.
    + specialize (Hg (or_intror (or_intror (or_introl Ho)))). lia.
    + specialize (Hg (or_intror (or_intror (or_intror Ho)))). lia.
  - intros (H1 & H2 & H3 & H4).
    rewrite (patch_v1_only_main_edit d H1 H2 H3).
    apply replace_absent. exact H4.
Qed.

Lemma patch_v1_idempotent_iff d :
  patch_v1 (patch_v1 d) = patch_v1 d
  ↔ ¬ occurs indicatif_import d ∧ ¬ occurs settings_struct_anchor d
    ∧ ¬ occurs main_anchor d.
Proof.
  destruct (patch_v1_anchors_stay d) as (S1 & S2 & S3).
  split.
  - intros Heq. pose proof (patch_v1_grows (patch_v1 d)) as Hg.
    rewrite Heq in Hg. repeat split; intros Ho.
    + specialize (Hg (or_introl (S1 Ho))). lia.
    + specialize (Hg (or_intror (or_introl (S2 Ho)))). lia.
    + specialize (Hg (or_intror (or_intror (or_introl (S3 Ho))))). lia.
  - intros (H1 & H2 & H3).
    rewrite (patch_v1_only_main_edit d H1 H2 H3).
    rewrite patch_v1_only_main_edit.
    + apply replace_absent, main_edit_vanishes.
    + apply not_created_absent; [discriminate | by_computation | exact H1].
    + apply not_created_absent; [discriminate | by_computation | exact H2].
    + apply not_created_absent; [discriminate | by_computation | exact H3].
Qed.

Lemma patch_v2_grows d :
  occurs indicatif_import d ∨ occurs settings_struct_anchor d
  ∨ occurs main_anchor d ∨ occurs start_time_stmt d →
  length d < length (patch_v2 d).
Proof.
  intros Hany. rewrite patch_v2_unfold.
  set (d1 := replace indicatif_import indicatif_and_clap d).
  set (d2 := replace settings_struct_anchor _ d1).
  set (d3 := replace main_anchor _ d2).
  set (d4 := replace start_time_stmt _ d3).
  assert (length d ≤ length d1) as L1 by (subst d1; longer_replacement).
  assert (length d1 ≤ length d2) as L2 by (subst d2; longer_replacement).
  assert (length d2 ≤ length d3) as L3 by (subst d3; longer_replacement).
  assert (length d3 ≤ length d4) as L4 by (subst d4; longer_replacement).
  destruct Hany as [H|[H|[H|H]]].
  - assert (length d < length d1) by (subst d1; strictly_longer H). lia.
  - assert (occurs settings_struct_anchor d1) as H1
      by (subst d1; still_there H).
    assert (length d1 < length d2) by (subst d2; strictly_longer H1). lia.
  - assert (occurs main_anchor d1) as H1 by (subst d1; still_there H).
    assert (occurs main_anchor d2) as H2 by (subst d2; still_there H1).
    assert (length d2 < length d3) by (subst d3; strictly_longer H2). lia.
  - assert (occurs start_time_stmt d1) as H1 by (subst d1; still_there H).
    assert (occurs start_time_stmt d2) as H2 by (subst d2; still_there H1).
    assert (occurs start_time_stmt d3) as H3 by (subst d3; still_there H2).
    assert (length d3 < length d4) by (subst d4; strictly_longer H3). lia.
Qed.

Lemma patch_v2_anchors_stay d :
  (occurs indicatif_import d → occurs indicatif_import (patch_v2 d))
  ∧ (occurs settings_struct_anchor d →
     occurs settings_struct_anchor (patch_v2 d))
  ∧ (occurs main_anchor d → occurs main_anchor (patch_v2 d))
  ∧ (occurs start_time_stmt d → occurs start_time_stmt (patch_v2 d)).
Proof.
  rewrite patch_v2_unfold.
  set (d1 := replace indicatif_import indicatif_and_clap d).
  set (d2 := replace settings_struct_anchor _ d1).
  set (d3 := replace main_anchor _ d2).
  split; [|split; [|split]]; intros H.
  - assert (occurs indicatif_import d1) as H1.
    { apply (occurs_prefix indicatif_import newline_clap).
      subst d1. apply occurs_replacement; [discriminate | exact H]. }
    assert (occurs indicatif_import d2) as H2 by (subst d2; still_there H1).
    assert (occurs indicatif_import d3) as H3 by (subst d3; still_there H2).
    still_there H3.
  - assert (occurs settings_struct_anchor d1) as H1
      by (subst d1; still_there H).
    assert (occurs settings_struct_anchor d2) as H2.
    { apply (occurs_suffix settings_struct_anchor variant_structs_v2).
      subst d2. apply occurs_replacement; [discriminate | exact H1]. }
    assert (occurs settings_struct_anchor d3) as H3
      by (subst d3; still_there H2).
    still_there H3.
  - assert (occurs main_anchor d1) as H1 by (subst d1; still_there H).
    assert (occurs main_anchor d2) as H2 by (subst d2; still_there H1).
    assert (occurs main_anchor d3) as H3.
    { apply (occurs_suffix main_anchor helper_function).
      subst d3. apply occurs_replacement; [discriminate | exact H2]. }
    still_there H3.
  - assert (occurs start_time_stmt d1) as H1 by (subst d1; still_there H).
    assert (occurs start_time_stmt d2) as H2 by (subst d2; still_there H1).
    assert (occurs start_time_stmt d3) as H3 by (subst d3; still_there H2).
    apply (occurs_suffix start_time_stmt args_insertion).
    apply occurs_replacement; [discriminate | exact H3].
Qed.

Lemma patch_v2_fixed_iff d :
  patch_v2 d = d
  ↔ ¬ occurs indicatif_import d ∧ ¬ occurs settings_struct_anchor d
    ∧ ¬ occurs main_anchor d ∧ ¬ occurs start_time_stmt d.
Proof.
  split.
  - intros Heq. pose proof (patch_v2_grows d) as Hg. rewrite Heq in Hg.
    repeat split; intros Ho.
    + specialize (Hg (or_introl Ho)). lia.
    + specialize (Hg (or_intror (or_introl Ho))). lia.
    + specialize (Hg (or_intror (or_intror (or_introl Ho)))). lia.
    + specialize (Hg (or_intror (or_intror (or_intror Ho)))). lia.
  - intros (H1 & H2 & H3 & H4). rewrite patch_v2_unfold.
    rewrite (replace_absent indicatif_import _ d H1).
    rewrite (replace_absent settings_struct_anchor _ d H2).
    rewrite (replace_absent main_anchor _ d H3).
    apply replace_absent. exact H4.
Qed.

Lemma patch_v2_idempotent_iff d :
  patch_v2 (patch_v2 d) = patch_v2 d
  ↔ ¬ occurs indicatif_import d ∧ ¬ occurs settings_struct_anchor d
    ∧ ¬ occurs main_anchor d ∧ ¬ occurs start_time_stmt d.
Proof.
  destruct (patch_v2_anchors_stay d) as (S1 & S2 & S3 & S4).
  split.
  - intros Heq. pose proof (patch_v2_grows (patch_v2 d)) as Hg.
    rewrite Heq in Hg. repeat split; intros Ho.
    + specialize (Hg (or_introl (S1 Ho))). lia.
    + specialize (Hg (or_intror (or_introl (S2 Ho)))). lia.
    + specialize (Hg (or_intror (or_intror (or_introl (S3 Ho))))). lia.
    + specialize (Hg (or_intror (or_intror (or_intror (S4 Ho))))). lia.
  - intros Hnone. apply patch_v2_fixed_iff in Hnone as Heq.
    by rewrite !Heq.
Qed.

Lemma twice_from_double (s t d : document) :
  occurs (s ++ s ++ t) d → occurs_twice s d.
Proof. intros (p & q & ->). exists p, [], (t ++ q). by rewrite <- !app_assoc. Qed.

Lemma occurs_twice_prefix (s t d : document) :
  occurs_twice (s ++ t) d → occurs_twice s d.
Proof.
  intros (p & q & r & ->). exists p, (t ++ q), (t ++ r).
  by rewrite <- !app_assoc.
Qed.

Lemma args_and_start_time_split :
  args_and_start_time = args_insertion ++ start_time_stmt.
Proof. reflexivity. Qed.

Lemma patch_v1_doubles_structs d :
  occurs settings_struct_anchor d →
  occurs (variant_structs ++ variant_structs ++ settings_struct_anchor)
    (patch_v1 (patch_v1 d)).
Proof.
  intros H.
  assert (occurs (variant_structs ++ settings_struct_anchor) (patch_v1 d))
    as Hblock.
  { rewrite patch_v1_unfold.
    set (d1 := replace indicatif_import indicatif_and_clap d).
    set (d2 := replace settings_struct_anchor _ d1).
    set (d3 := replace main_anchor _ d2).
    assert (occurs settings_struct_anchor d1) as H1
      by (subst d1; still_there H).
    assert (occurs (variant_structs ++ settings_struct_anchor) d2) as H2.
    { subst d2. apply occurs_replacement; [discriminate | exact H1]. }
    assert (occurs (variant_structs ++ settings_struct_anchor) d3) as H3
      by (subst d3; still_there H2).
    still_there H3. }
  rewrite (patch_v1_unfold (patch_v1 d)).
  set (x1 := replace indicatif_import indicatif_and_clap (patch_v1 d)).
  set (x2 := replace settings_struct_anchor _ x1).
  set (x3 := replace main_anchor _ x2).
  assert (occurs (variant_structs ++ settings_struct_anchor) x1) as H1
    by (subst x1; still_there Hblock).
  assert (occurs (variant_structs ++ variant_structs ++ settings_struct_anchor)
            x2) as H2.
  { subst x2. apply occurs_before_match.
    - by_computation.
    - apply contains_false. by_computation.
    - intros Hb%border_borderb. vm_compute in Hb. discriminate.
    - exact H1. }
  assert (occurs (variant_structs ++ variant_structs ++ settings_struct_anchor)
            x3) as H3 by (subst x3; still_there H2).
  still_there H3.
Qed.

Lemma patch_v1_doubles_helper d :
  occurs main_anchor d →
  occurs (helper_function ++ helper_function ++ main_anchor)
    (patch_v1 (patch_v1 d)).
Proof.
  intros H.
  assert (occurs (helper_function ++ main_anchor) (patch_v1 d)) as Hblock.
  { rewrite patch_v1_unfold.
    set (d1 := replace indicatif_import indicatif_and_clap d).
    set (d2 := replace settings_struct_anchor _ d1).
    set (d3 := replace main_anchor _ d2).
    assert (occurs main_anchor d1) as H1 by (subst d1; still_there H).
    assert (occurs main_anchor d2) as H2 by (subst d2; still_there H1).
    assert (occurs (helper_function ++ main_anchor) d3) as H3.
    { subst d3. apply occurs_replacement; [discriminate | exact H2]. }
    still_there H3. }
  rewrite (patch_v1_unfold (patch_v1 d)).
  set (x1 := replace indicatif_import indicatif_and_clap (patch_v1 d)).
  set (x2 := replace settings_struct_anchor _ x1).
  set (x3 := replace main_anchor _ x2).
  assert (occurs (helper_function ++ main_anchor) x1) as H1
    by (subst x1; still_there Hblock).
  assert (occurs (helper_function ++ main_anchor) x2) as H2
    by (subst x2; still_there H1).
  assert (occurs (helper_function ++ helper_function ++ main_anchor) x3)
    as H3.
  { subst x3. apply occurs_before_match.
    - by_computation.
    - apply contains_false. by_computation.
    - intros Hb%border_borderb. vm_compute in Hb. discriminate.
    - exact H2. }
  still_there H3.
Qed.

Lemma patch_v2_doubles_structs d :
  occurs settings_struct_anchor d →
  occurs (variant_structs_v2 ++ variant_structs_v2 ++ settings_struct_anchor)
    (patch_v2 (patch_v2 d)).
Proof.
  intros H.
  assert (occurs (variant_structs_v2 ++ settings_struct_anchor) (patch_v2 d))
    as Hblock.
  { rewrite patch_v2_unfold.
    set (d1 := replace indicatif_import indicatif_and_clap d).
    set (d2 := replace settings_struct_anchor _ d1).
    set (d3 := replace main_anchor _ d2).
    assert (occurs settings_struct_anchor d1) as H1
      by (subst d1; still_there H).
    assert (occurs (variant_structs_v2 ++ settings_struct_anchor) d2) as H2.
    { subst d2. apply occurs_replacement; [discriminate | exact H1]. }
    assert (occurs (variant_structs_v2 ++ settings_struct_anchor) d3) as H3
      by (subst d3; still_there H2).
    still_there H3. }
  rewrite (patch_v2_unfold (patch_v2 d)).
  set (x1 := replace indicatif_import indicatif_and_clap (patch_v2 d)).
  set (x2 := replace settings_struct_anchor _ x1).
  set (x3 := replace main_anchor _ x2).
  assert (occurs (variant_structs_v2 ++ settings_struct_anchor) x1) as H1
    by (subst x1; still_there Hblock).
  assert (occurs (variant_structs_v2 ++ variant_structs_v2
                  ++ settings_struct_anchor) x2) as H2.
  { subst x2. apply occurs_before_match.
    - by_computation.
    - apply contains_false. by_computation.
    - intros Hb%border_borderb. vm_compute in Hb. discriminate.
    - exact H1. }
  assert (occurs (variant_structs_v2 ++ variant_structs_v2
                  ++ settings_struct_anchor) x3) as H3
    by (subst x3; still_there H2).
  still_there H3.
Qed.

Lemma patch_v2_doubles_helper d :
  occurs main_anchor d →
  occurs (helper_function ++ helper_function ++ main_anchor)
    (patch_v2 (patch_v2 d)).
Proof.
  intros H.
  assert (occurs (helper_function ++ main_anchor) (patch_v2 d)) as Hblock.
  { rewrite patch_v2_unfold.
    set (d1 := replace indicatif_import indicatif_and_clap d).
    set (d2 := replace settings_struct_anchor _ d1).
    set (d3 := replace main_anchor _ d2).
    assert (occurs main_anchor d1) as H1 by (subst d1; still_there H).
    assert (occurs main_anchor d2) as H2 by (subst d2; still_there H1).
    assert (occurs (helper_function ++ main_anchor) d3) as H3.
    { subst d3. apply occurs_replacement; [discriminate | exact H2]. }
    still_there H3. }
  rewrite (patch_v2_unfold (patch_v2 d)).
  set (x1 := replace indicatif_import indicatif_and_clap (patch_v2 d)).
  set (x2 := replace settings_struct_anchor _ x1).
  set (x3 := replace main_anchor _ x2).
  assert (occurs (helper_function ++ main_anchor) x1) as H1
    by (subst x1; still_there Hblock).
  assert (occurs (helper_function ++ main_anchor) x2) as H2
    by (subst x2; still_there H1).
  assert (occurs (helper_function ++ helper_function ++ main_anchor) x3)
    as H3.
  { subst x3. apply occurs_before_match.
    - by_computation.
    - apply contains_false. by_computation.
    - intros Hb%border_borderb. vm_compute in Hb. discriminate.
    - exact H2. }
  still_there H3.
Qed.

Lemma patch_v2_doubles_args d :
  occurs start_time_stmt d →
  occurs (args_insertion ++ args_insertion ++ start_time_stmt)
    (patch_v2 (patch_v2 d)).
Proof.
  intros H.
  assert (occurs (args_insertion ++ start_time_stmt) (patch_v2 d)) as Hblock.
  { rewrite patch_v2_unfold, args_and_start_time_split.
    set (d1 := replace indicatif_import indicatif_and_clap d).
    set (d2 := replace settings_struct_anchor _ d1).
    set (d3 := replace main_anchor _ d2).
    assert (occurs start_time_stmt d1) as H1 by (subst d1; still_there H).
    assert (occurs start_time_stmt d2) as H2 by (subst d2; still_there H1).
    assert (occurs start_time_stmt d3) as H3 by (subst d3; still_there H2).
    apply occurs_replacement; [discriminate | exact H3]. }
  rewrite (patch_v2_unfold (patch_v2 d)), args_and_start_time_split.
  set (x1 := replace indicatif_import indicatif_and_clap (patch_v2 d)).
  set (x2 := replace settings_struct_anchor _ x1).
  set (x3 := replace main_anchor _ x2).
  assert (occurs (args_insertion ++ start_time_stmt) x1) as H1
    by (subst x1; still_there Hblock).
  assert (occurs (args_insertion ++ start_time_stmt) x2) as H2
    by (subst x2; still_there H1).
  assert (occurs (args_insertion ++ start_time_stmt) x3) as H3
    by (subst x3; still_there H2).
  apply occurs_before_match.
  - by_computation.
  - apply contains_false. by_computation.
  - intros Hb%border_borderb. vm_compute in Hb. discriminate.
  - exact H3.
Qed.

(** X4.  The [if ... in content] test before the last edit of
    [modify_cluster_topics_v2] changes nothing: v2 is the four [replace]
    calls in sequence, as if the test were not there. *)
Theorem v2_guard_is_redundant d :
  patch_v2 d
  = replace start_time_stmt args_and_start_time
      (replace main_anchor (helper_function ++ main_anchor)
         (replace settings_struct_anchor
            (variant_structs_v2 ++ settings_struct_anchor)
            (replace indicatif_import indicatif_and_clap d))).
Proof. exact (patch_v2_unfold d). Qed.

(** X3.  The edit of [main] (the fourth [replace] of v1) is idempotent on every
    document: its output never contains [old_main_start], so applying it
    again changes nothing. *)
Theorem main_edit_is_idempotent d :
  ¬ occurs old_main_start (apply_rule main_rule d)
  ∧ apply_rule main_rule (apply_rule main_rule d) = apply_rule main_rule d.
Proof.
  split; [exact (main_edit_vanishes d)|].
  unfold apply_rule at 1. apply replace_absent. exact (main_edit_vanishes d).
Qed.

(** X5.  v1 returns the document unchanged exactly when none of its four anchors
    occurs in it; otherwise the output is longer. *)
Theorem v1_changes_exactly_anchored_documents d :
  (patch_v1 d = d
   ↔ ¬ occurs indicatif_import d ∧ ¬ occurs settings_struct_anchor d
     ∧ ¬ occurs main_anchor d ∧ ¬ occurs old_main_start d)
  ∧ length d ≤ length (patch_v1 d).
Proof.
  split; [exact (patch_v1_fixed_iff d)|].
  destruct (decide (patch_v1 d = d)) as [->|Hne]; [lia|].
  enough (length d < length (patch_v1 d)) by lia.
  apply patch_v1_grows.
  destruct (contains indicatif_import d) eqn:H1;
    [left; by apply contains_occurs|].
  destruct (contains settings_struct_anchor d) eqn:H2;
    [right; left; by apply contains_occurs|].
  destruct (contains main_anchor d) eqn:H3;
    [right; right; left; by apply contains_occurs|].
  destruct (contains old_main_start d) eqn:H4;
    [right; right; right; by apply contains_occurs|].
  destruct Hne. apply patch_v1_fixed_iff.
  repeat split; by apply contains_false.
Qed.

(** X6.  The same for v2 with its four anchors. *)
Theorem v2_changes_exactly_anchored_documents d :
  (patch_v2 d = d
   ↔ ¬ occurs indicatif_import d ∧ ¬ occurs settings_struct_anchor d
     ∧ ¬ occurs main_anchor d ∧ ¬ occurs start_time_stmt d)
  ∧ length d ≤ length (patch_v2 d).
Proof.
  split; [exact (patch_v2_fixed_iff d)|].
  destruct (decide (patch_v2 d = d)) as [->|Hne]; [lia|].
  enough (length d < length (patch_v2 d)) by lia.
  apply patch_v2_grows.
  destruct (contains indicatif_import d) eqn:H1;
    [left; by apply contains_occurs|].
  destruct (contains settings_struct_anchor d) eqn:H2;
    [right; left; by apply contains_occurs|].
  destruct (contains main_anchor d) eqn:H3;
    [right; right; left; by apply contains_occurs|].
  destruct (contains start_time_stmt d) eqn:H4;
    [right; right; right; by apply contains_occurs|].
  destruct Hne. apply patch_v2_fixed_iff.
  repeat split; by apply contains_false.
Qed.

(** X7.  A second run of v1 leaves the result of the first run as it is exactly
    when the original document contains none of the three anchors that the
    inserting edits keep (the import line, the [Settings] struct header, the
    [#[tokio::main]] header); the anchor of the fourth edit does not matter,
    since that edit removes it. *)
Theorem v1_second_run_changes_iff_insert_anchor d :
  patch_v1 (patch_v1 d) = patch_v1 d
  ↔ ¬ occurs indicatif_import d ∧ ¬ occurs settings_struct_anchor d
    ∧ ¬ occurs main_anchor d.
Proof. exact (patch_v1_idempotent_iff d). Qed.

(** X8.  A second run of v2 leaves the result of the first run as it is exactly
    when the first run changed nothing, that is, when none of the four
    anchors occurs in the original document. *)
Theorem v2_second_run_changes_iff_anchor d :
  patch_v2 (patch_v2 d) = patch_v2 d
  ↔ ¬ occurs indicatif_import d ∧ ¬ occurs settings_struct_anchor d
    ∧ ¬ occurs main_anchor d ∧ ¬ occurs start_time_stmt d.
Proof. exact (patch_v2_idempotent_iff d). Qed.

(** X9.  Running v1 twice leaves the block of struct definitions twice in a
    document with the [Settings] header, and the helper function twice in a
    document with the [#[tokio::main]] header. *)
Theorem v1_second_run_duplicates_blocks d :
  (occurs settings_struct_anchor d →
   occurs_twice variant_structs (patch_v1 (patch_v1 d))
   ∧ 2 ≤ count variant_structs (patch_v1 (patch_v1 d)))
  ∧ (occurs main_anchor d →
     occurs_twice helper_function (patch_v1 (patch_v1 d))
     ∧ 2 ≤ count helper_function (patch_v1 (patch_v1 d))).
Proof.
  split; intros H.
  - assert (occurs_twice variant_structs (patch_v1 (patch_v1 d))) as Htw.
    { eapply twice_from_double. exact (patch_v1_doubles_structs d H). }
    split; [exact Htw|]. apply count_occurs_twice; [discriminate | exact Htw].
  - assert (occurs_twice helper_function (patch_v1 (patch_v1 d))) as Htw.
    { eapply twice_from_double. exact (patch_v1_doubles_helper d H). }
    split; [exact Htw|]. apply count_occurs_twice; [discriminate | exact Htw].
Qed.

(** X10.  Running v2 twice leaves the struct block, the helper function and the
    statement [let args = Args::parse();] twice, each when its anchor is in
    the document. *)
Theorem v2_second_run_duplicates_blocks d :
  (occurs settings_struct_anchor d →
   occurs_twice variant_structs_v2 (patch_v2 (patch_v2 d)))
  ∧ (occurs main_anchor d →
     occurs_twice helper_function (patch_v2 (patch_v2 d)))
  ∧ (occurs start_time_stmt d →
     occurs_twice args_stmt (patch_v2 (patch_v2 d))).
Proof.
  split; [|split]; intros H.
  - eapply twice_from_double. exact (patch_v2_doubles_structs d H).
  - eapply twice_from_double. exact (patch_v2_doubles_helper d H).
  - apply (occurs_twice_prefix args_stmt (text [ ""; "    " ])).
    change (args_stmt ++ text [ ""; "    " ]) with args_insertion.
    eapply twice_from_double. exact (patch_v2_doubles_args d H).
Qed.

Lemma v1_second_run_duplicates_blocks_witness :
  occurs_twice variant_structs (patch_v1 (patch_v1 v2_target))
  ∧ occurs_twice helper_function (patch_v1 (patch_v1 v2_target)).
Proof.
  destruct (v1_second_run_duplicates_blocks v2_target) as [Hs Hh].
  split.
  - apply Hs. apply contains_occurs. by_computation.
  - apply Hh. apply contains_occurs. by_computation.
Defined.

Lemma v2_second_run_duplicates_blocks_witness :
  occurs_twice variant_structs_v2 (patch_v2 (patch_v2 v2_target))
  ∧ occurs_twice helper_function (patch_v2 (patch_v2 v2_target))
  ∧ occurs_twice args_stmt (patch_v2 (patch_v2 v2_target)).
Proof.
  destruct (v2_second_run_duplicates_blocks v2_target) as (Hs & Hh & Ha).
  split; [|split].
  - apply Hs. apply contains_occurs. by_computation.
  - apply Hh. apply contains_occurs. by_computation.
  - apply Ha. apply contains_occurs. by_computation.
Defined.

(** * Further properties of the inserted Rust code *)

Section ResolverExtras.
Import Rust.
Variable from_str : string → option VariantsConfig.
Implicit Types (fs : gmap string node) (base : Settings).

Lemma load_unreadable fs variant_name :
  fs !! "variants.json" = Some Unreadable →
  load_variant_settings from_str variant_name fs
    = ([Exists "variants.json"; ReadToString "variants.json"], Err Io).
Proof.
  intros Hfs. unfold load_variant_settings, bind, path_exists, read_to_string.
  rewrite Hfs. rewrite bool_decide_true by eauto. simpl.
  rewrite Hfs. reflexivity.
Qed.

Lemma load_malformed fs content variant_name :
  fs !! "variants.json" = Some (File content) →
  from_str content = None →
  load_variant_settings from_str variant_name fs
    = ([Exists "variants.json"; ReadToString "variants.json"], Err Json).
Proof.
  intros Hfs Hparse.
  unfold load_variant_settings, bind, path_exists, read_to_string.
  rewrite Hfs. rewrite bool_decide_true by eauto. simpl.
  rewrite Hfs, Hparse. reflexivity.
Qed.

(** A table of every way [load_variant_settings] can end. *)
Lemma load_cases fs variant_name :
  (fs !! "variants.json" = None
   ∧ load_variant_settings from_str variant_name fs
     = ([Exists "variants.json"], Err (Message "variants.json not found")))
  ∨ (fs !! "variants.json" = Some Unreadable
     ∧ load_variant_settings from_str variant_name fs
       = ([Exists "variants.json"; ReadToString "variants.json"], Err Io))
  ∨ (∃ content,
       fs !! "variants.json" = Some (File content)
       ∧ from_str content = None
       ∧ load_variant_settings from_str variant_name fs
         = ([Exists "variants.json"; ReadToString "variants.json"],
            Err Json))
  ∨ (∃ content config,
       fs !! "variants.json" = Some (File content)
       ∧ from_str content = Some config
       ∧ variants config !! variant_name = None
       ∧ load_variant_settings from_str variant_name fs
         = ([Exists "variants.json"; ReadToString "variants.json"],
            Err (Message ("Variant '" +:+ variant_name
                          +:+ "' not found in variants.json"))))
  ∨ (∃ content config v,
       fs !! "variants.json" = Some (File content)
       ∧ from_str content = Some config
       ∧ variants config !! variant_name = Some v
       ∧ load_variant_settings from_str variant_name fs
         = ([Exists "variants.json"; ReadToString "variants.json"],
            Ok (settings v))).
Proof.
  destruct (fs !! "variants.json") as [[content|]|] eqn:Hfs.
  - destruct (from_str content) as [config|] eqn:Hparse.
    + destruct (variants config !! variant_name) as [v|] eqn:Hv.
      * do 4 right. exists content, config, v.
        split; [reflexivity|]. split; [exact Hparse|]. split; [exact Hv|].
        exact (load_variant_found from_str fs content config variant_name v
                 Hfs Hparse Hv).
      * do 3 right. left. exists content, config.
        split; [reflexivity|]. split; [exact Hparse|]. split; [exact Hv|].
        exact (load_variant_unknown from_str fs content config variant_name
                 Hfs Hparse Hv).
    + do 2 right. left. exists content.
      split; [reflexivity|]. split; [exact Hparse|].
      exact (load_malformed fs content variant_name Hfs Hparse).
  - right. left. split; [reflexivity|].
    exact (load_unreadable fs variant_name Hfs).
  - left. split; [reflexivity|].
    exact (load_catalog_missing from_str fs variant_name Hfs).
Qed.

(** X15.  [load_variant_settings] touches no path but [variants.json]: it tests
    once whether the file exists, and reads it once exactly when it does. *)
Theorem load_log_shape fs variant_name :
  fst (load_variant_settings from_str variant_name fs)
  = match fs !! "variants.json" with
    | None => [Exists "variants.json"]
    | Some _ => [Exists "variants.json"; ReadToString "variants.json"]
    end.
Proof.
  destruct (load_cases fs variant_name)
    as [[Hfs ->]|[[Hfs ->]|[(c & Hfs & _ & ->)|[(c & cfg & Hfs & _ & _ & ->)
       |(c & cfg & v & Hfs & _ & _ & ->)]]]]; by rewrite Hfs.
Qed.

(** X16.  A catalog that exists but cannot be read fails with the I/O error, and a
    catalog that does not parse fails with the JSON error; both whatever
    variant is requested, known or not. *)
Theorem unreadable_or_malformed_catalog fs variant_name :
  (fs !! "variants.json" = Some Unreadable →
   snd (load_variant_settings from_str variant_name fs) = Err Io)
  ∧ (∀ content,
       fs !! "variants.json" = Some (File content) →
       from_str content = None →
       snd (load_variant_settings from_str variant_name fs) = Err Json).
Proof.
  split.
  - intros Hfs. by rewrite (load_unreadable fs variant_name Hfs).
  - intros content Hfs Hparse.
    by rewrite (load_malformed fs content variant_name Hfs Hparse).
Qed.

(** X17.  If [load_variant_settings] succeeds, the catalog file exists, parses,
    has an entry under exactly the requested name, and the result is that
    entry's [settings]. *)
Theorem load_success_inversion fs variant_name vs :
  snd (load_variant_settings from_str variant_name fs) = Ok vs →
  ∃ content config v,
    fs !! "variants.json" = Some (File content)
    ∧ from_str content = Some config
    ∧ variants config !! variant_name = Some v
    ∧ vs = settings v.
Proof.
  destruct (load_cases fs variant_name)
    as [[Hfs ->]|[[Hfs ->]|[(c & Hfs & _ & ->)|[(c & cfg & Hfs & _ & _ & ->)
       |(c & cfg & v & Hfs & Hp & Hv & ->)]]]]; simpl; try discriminate.
  intros [= <-]. by exists c, cfg, v.
Qed.

(** X18.  The settings block fails exactly when a variant is requested and loading
    it fails, with the error of the load: there is no fallback to the base
    settings or the defaults. *)
Theorem resolve_fails_iff_load_fails args base fs e :
  snd (resolve_settings from_str args base fs) = Err e
  ↔ ∃ variant_name,
      variant args = Some variant_name
      ∧ snd (load_variant_settings from_str variant_name fs) = Err e.
Proof.
  destruct args as [[variant_name|]].
  - destruct (load_variant_settings from_str variant_name fs)
      as [log [vs|e']] eqn:Hload.
    + rewrite (resolve_settings_loaded _ _ _ _ _ _ Hload). simpl. split.
      * discriminate.
      * intros (n & [= <-] & Hn). rewrite Hload in Hn. discriminate.
    + rewrite (resolve_settings_failed _ _ _ _ _ _ Hload). simpl. split.
      * intros [= ->]. exists variant_name. by rewrite Hload.
      * intros (n & [= <-] & Hn). rewrite Hload in Hn.
        simpl in Hn. by injection Hn as ->.
  - rewrite resolve_settings_none. simpl. split; [discriminate|].
    intros (n & Hn & _). discriminate.
Qed.

(** X19.  The line announcing the variant is printed before the catalog is
    touched, also when loading then fails. *)
Theorem loading_is_announced_first variant_name base fs :
  fst (resolve_settings from_str {| variant := Some variant_name |} base fs)
  = Println ("📋 Loading variant: " +:+ variant_name +:+ nl)
    :: fst (load_variant_settings from_str variant_name fs).
Proof.
  destruct (load_variant_settings from_str variant_name fs)
    as [log [vs|e]] eqn:Hload.
  - rewrite (resolve_settings_loaded _ _ _ _ _ _ Hload). simpl.
    by rewrite app_nil_r.
  - by rewrite (resolve_settings_failed _ _ _ _ _ _ Hload).
Qed.

(** X20.  A settings file without the [topic_clustering] block resolves like one
    whose block sets no field; with no variant requested both give the five
    defaults. *)
Theorem missing_block_is_empty_block args fs :
  resolve_settings from_str args {| topic_clustering := None |} fs
  = resolve_settings from_str args {| topic_clustering := Some empty_block |} fs
  ∧ snd (resolve_settings from_str {| variant := None |}
           {| topic_clustering := None |} fs)
    = Ok (256%N, 0.7%float, "weighted", true, true).
Proof.
  split; [|by rewrite resolve_settings_none].
  destruct args as [[variant_name|]].
  - destruct (load_variant_settings from_str variant_name fs)
      as [log [vs|e]] eqn:Hload.
    + rewrite !(resolve_settings_loaded _ _ _ _ _ _ Hload). reflexivity.
    + by rewrite !(resolve_settings_failed _ _ _ _ _ _ Hload).
  - by rewrite !resolve_settings_none.
Qed.

(** X21.  A variant that sets no field resolves to what no variant resolves to. *)
Theorem empty_variant_is_no_variant variant_name log base fs :
  load_variant_settings from_str variant_name fs = (log, Ok empty_overrides) →
  snd (resolve_settings from_str {| variant := Some variant_name |} base fs)
  = snd (resolve_settings from_str {| variant := None |} base fs).
Proof.
  intros Hload. rewrite (resolve_settings_loaded _ _ _ _ _ _ Hload).
  by rewrite resolve_settings_none.
Qed.

(** X22.  A variant that sets all five fields decides the result alone: the base
    settings have no influence. *)
Theorem full_variant_ignores_base variant_name log vs base fs c o l u n :
  load_variant_settings from_str variant_name fs = (log, Ok vs) →
  clusters vs = Some c → outlier_threshold vs = Some o →
  linkage_method vs = Some l → use_relevance_weighting vs = Some u →
  use_llm_naming vs = Some n →
  snd (resolve_settings from_str {| variant := Some variant_name |} base fs)
  = Ok (c, o, l, u, n).
Proof.
  intros Hload Hc Ho Hl Hu Hn.
  rewrite (resolve_settings_loaded _ _ _ _ _ _ Hload). simpl.
  unfold resolve_spec. by rewrite Hc, Ho, Hl, Hu, Hn.
Qed.
End ResolverExtras.

Lemma unreadable_or_malformed_catalog_witness :
  snd (Rust.load_variant_settings Rust.parse_example "fast" unreadable_store)
    = Rust.Err Rust.Io
  ∧ snd (Rust.load_variant_settings Rust.parse_example "fast"
           (Rust.catalog_store "not json"))
    = Rust.Err Rust.Json.
Proof.
  split.
  - apply (unreadable_or_malformed_catalog Rust.parse_example
             unreadable_store "fast").
    apply lookup_insert_eq.
  - apply (proj2 (unreadable_or_malformed_catalog Rust.parse_example
                    (Rust.catalog_store "not json") "fast") "not json").
    + apply lookup_insert_eq.
    + reflexivity.
Defined.

Lemma load_success_inversion_witness :
  ∃ content config v,
    Rust.catalog_store "1" !! "variants.json" = Some (Rust.File content)
    ∧ Rust.parse_example content = Some config
    ∧ Rust.variants config !! "accurate" = Some v
    ∧ Rust.only_outlier_threshold = Rust.settings v.
Proof.
  apply (load_success_inversion Rust.parse_example (Rust.catalog_store "1")
           "accurate" Rust.only_outlier_threshold).
  vm_compute. reflexivity.
Defined.

Lemma empty_variant_is_no_variant_witness :
  snd (Rust.resolve_settings (parse_as (single_variant "plain" empty_overrides))
         {| Rust.variant := Some "plain" |} Rust.base_clusters_100
         (Rust.catalog_store "{}"))
  = snd (Rust.resolve_settings
           (parse_as (single_variant "plain" empty_overrides))
           {| Rust.variant := None |} Rust.base_clusters_100
           (Rust.catalog_store "{}")).
Proof.
  apply (empty_variant_is_no_variant
           (parse_as (single_variant "plain" empty_overrides)) "plain"
           [Rust.Exists "variants.json"; Rust.ReadToString "variants.json"]).
  vm_compute. reflexivity.
Defined.

Lemma full_variant_ignores_base_witness :
  snd (Rust.resolve_settings (parse_as (single_variant "all" all_overrides))
         {| Rust.variant := Some "all" |} Rust.base_clusters_100
         (Rust.catalog_store "{}"))
  = Rust.Ok (8%N, 0.5%float, "ward", false, false).
Proof.
  apply (full_variant_ignores_base
           (parse_as (single_variant "all" all_overrides)) "all"
           [Rust.Exists "variants.json"; Rust.ReadToString "variants.json"]
           all_overrides); reflexivity.
Defined.

(** * Counting the occurrences that are not guarded *)

Section UnguardedCount.
Context {A : Type} `{EqDecision A}.
Implicit Types (old new s t d p q r u x y z g ctx : list A).

Lemma unguarded_count_from_cons g s ctx c d :
  unguarded_count_from g s (reverse ctx) (c :: d)
  = (if startswith s (c :: d) && negb (endswith g ctx) then 1 else 0)
    + unguarded_count_from g s (reverse (ctx ++ [c])) d.
Proof. by rewrite reverse_snoc. Qed.

Lemma unguarded_count_from_nil g s ctx :
  s ≠ [] → unguarded_count_from g s (reverse ctx) [] = 0.
Proof. by destruct s. Qed.





(** No unguarded occurrence is the same as [guarded]. *)
Lemma unguarded_count_from_zero g s d ctx :
  s ≠ [] →
  unguarded_count_from g s (reverse ctx) d = 0
  ↔ ∀ p q, d = p ++ s ++ q → g `suffix_of` ctx ++ p.
Proof.
  intros Hs. revert ctx. induction d as [|c d IH]; intros ctx.
  - rewrite unguarded_count_from_nil by done. split; [|done].
    intros _ p q Hd. symmetry in Hd. apply app_eq_nil in Hd as [_ Hd].
    by apply app_eq_nil in Hd as [? _].
  - rewrite unguarded_count_from_cons. split.
    + intros Hz p q Hd.
      assert (unguarded_count_from g s (reverse (ctx ++ [c])) d = 0) as Hrest
        by lia.
      destruct p as [|c' p]; simpl in Hd.
      * rewrite Hd, startswith_app in Hz. simpl in Hz.
        destruct (endswith g ctx) eqn:He; [|simpl in Hz; lia].
        rewrite app_nil_r. by apply endswith_suffix.
      * injection Hd as <- Hd.
        apply (proj1 (IH (ctx ++ [c])) Hrest) in Hd.
        by rewrite <- app_assoc in Hd.
    + intros Hall.
      assert (unguarded_count_from g s (reverse (ctx ++ [c])) d = 0) as ->.
      { apply IH. intros p q ->. rewrite <- app_assoc.
        by apply (Hall (c :: p) q). }
      destruct (startswith s (c :: d)) eqn:Hsw; [|done].
      apply startswith_prefix in Hsw as [q Hq].
      specialize (Hall [] q Hq). rewrite app_nil_r in Hall.
      apply endswith_suffix in Hall. by rewrite Hall.
Qed.

Lemma unguarded_count_zero g s d :
  s ≠ [] → unguarded_count g s d = 0 ↔ guarded g s d.
Proof. intros Hs. apply (unguarded_count_from_zero g s d [] Hs). Qed.
End UnguardedCount.

(** * The script on files *)

(** ** Text mode *)

(** What [read] returns has no carriage return. *)
Lemma universal_newlines_no_cr d : ¬ occurs [CR] (universal_newlines d).
Proof. apply anchor_vanishes; [discriminate | by_computation]. Qed.

(** None of the texts of v1 brings one in. *)
Lemma patch_v1_no_cr d : ¬ occurs [CR] d → ¬ occurs [CR] (patch_v1 d).
Proof.
  intros Hd. rewrite patch_v1_unfold.
  apply not_created_absent; [discriminate | by_computation |].
  apply not_created_absent; [discriminate | by_computation |].
  apply not_created_absent; [discriminate | by_computation |].
  apply not_created_absent; [discriminate | by_computation |].
  exact Hd.
Qed.

Lemma no_cr_cons c d : ¬ occurs [CR] (c :: d) → c ≠ CR ∧ ¬ occurs [CR] d.
Proof.
  intros Hd. split.
  - intros ->. apply Hd. by exists [], d.
  - intros Ho. apply Hd. by apply occurs_cons.
Qed.

Lemma universal_newlines_id d : ¬ occurs [CR] d → universal_newlines d = d.
Proof.
  intros Hd. unfold universal_newlines.
  rewrite (replace_absent [CR; LF] [LF] d).
  - by apply replace_absent.
  - intros (p & q & ->). apply Hd. by exists p, (LF :: q).
Qed.

Lemma crlf_round_trip d :
  ¬ occurs [CR] d → replace [CR; LF] [LF] (replace [LF] [CR; LF] d) = d.
Proof.
  induction d as [|c d IH]; intros Hd; [reflexivity|].
  apply no_cr_cons in Hd as [Hc Hd].
  destruct (decide (c = LF)) as [->|Hlf].
  - change (LF :: d) with ([LF] ++ d) at 1.
    rewrite replace_match by discriminate.
    rewrite replace_match by discriminate.
    rewrite IH by done. reflexivity.
  - rewrite replace_step; [|discriminate|].
    2:{ intros [k Hk]. injection Hk as Hk _. done. }
    rewrite replace_step; [|discriminate|].
    2:{ intros [k Hk]. injection Hk as Hk _. done. }
    by rewrite IH.
Qed.

(** Writing a text without carriage returns and reading it again gives the
    text, with either line separator. *)
Lemma read_back linesep d :
  linesep = [LF] ∨ linesep = [CR; LF] → ¬ occurs [CR] d →
  universal_newlines (write_newlines linesep d) = d.
Proof.
  intros [->| ->] Hd; unfold write_newlines.
  - rewrite decide_True by done. by apply universal_newlines_id.
  - rewrite decide_False by discriminate. unfold universal_newlines.
    rewrite crlf_round_trip by done. by apply replace_absent.
Qed.

(** ** The runs of the two functions and of the entry point *)

Section ScriptFacts.
Variable decode : list ascii → option document.
Variable encode : document → option (list ascii).
Variable stdout_error : string → option exception.
Variable linesep : document.

(** Once the file is read, the rest of each function. *)
Lemma v1_after_read filepath w f decoded :
  files w !! filepath = Some f → readable f = true →
  decode (raw f) = Some decoded →
  modify_cluster_topics_v1 decode encode stdout_error linesep filepath w
  = and_then
      (write_text encode linesep filepath f
         (patch_v1 (universal_newlines decoded)) w)
      (print stdout_error ("✓ Modified " +:+ filepath)).
Proof.
  intros Hf Hr Hd. unfold modify_cluster_topics_v1, read_text.
  rewrite Hf, Hr, Hd. reflexivity.
Qed.

Lemma v2_after_read filepath w f decoded :
  files w !! filepath = Some f → readable f = true →
  decode (raw f) = Some decoded →
  modify_cluster_topics_v2 decode encode stdout_error linesep filepath w
  = and_then
      (print stdout_error ("✓ Modified " +:+ filepath) w)
      (write_text encode linesep filepath f
         (patch_v2 (universal_newlines decoded))).
Proof.
  intros Hf Hr Hd. unfold modify_cluster_topics_v2, read_text.
  rewrite Hf, Hr, Hd. reflexivity.
Qed.

(** How a returning call went. *)
Lemma v1_returned_inv filepath w w' :
  modify_cluster_topics_v1 decode encode stdout_error linesep filepath w
  = (w', Returned) →
  ∃ f decoded bytes,
    files w !! filepath = Some f
    ∧ readable f = true ∧ writable f = true
    ∧ decode (raw f) = Some decoded
    ∧ encode (write_newlines linesep (patch_v1 (universal_newlines decoded)))
      = Some bytes
    ∧ stdout_error ("✓ Modified " +:+ filepath) = None
    ∧ w' = mkRun (<[filepath := mkFile bytes true true]> (files w))
                 (stdout w ++ ["✓ Modified " +:+ filepath]).
Proof.
  unfold modify_cluster_topics_v1, read_text.
  destruct (files w !! filepath) as [f|] eqn:Hf; [|discriminate].
  destruct (readable f) eqn:Hr; cbn [negb]; [|discriminate].
  destruct (decode (raw f)) as [decoded|] eqn:Hd; [|discriminate].
  unfold write_text. rewrite Hr.
  destruct (writable f) eqn:Hw; cbn [negb and_then]; [|discriminate].
  destruct (encode _) as [bytes|] eqn:He; cbn [and_then]; [|discriminate].
  unfold print. cbn [files stdout].
  destruct (stdout_error _) eqn:Hp; [discriminate|].
  intros [= <-]. exists f, decoded, bytes. done.
Qed.


(** And the other way round. *)
Lemma v1_returns filepath w f decoded bytes :
  files w !! filepath = Some f →
  readable f = true → writable f = true →
  decode (raw f) = Some decoded →
  encode (write_newlines linesep (patch_v1 (universal_newlines decoded)))
    = Some bytes →
  stdout_error ("✓ Modified " +:+ filepath) = None →
  modify_cluster_topics_v1 decode encode stdout_error linesep filepath w
  = (mkRun (<[filepath := mkFile bytes true true]> (files w))
           (stdout w ++ ["✓ Modified " +:+ filepath]),
     Returned).
Proof.
  intros Hf Hr Hw Hd He Hp. rewrite (v1_after_read filepath w f decoded) by done.
  unfold write_text. rewrite Hr, Hw, He. cbn [negb and_then].
  unfold print. rewrite Hp. reflexivity.
Qed.



Lemma v2_other_paths filepath w path :
  path ≠ filepath →
  files (modify_cluster_topics_v2 decode encode stdout_error linesep
           filepath w).1 !! path
  = files w !! path.
Proof.
  intros Hne. unfold modify_cluster_topics_v2, read_text.
  destruct (files w !! filepath) as [f|] eqn:Hf; [|reflexivity].
  destruct (readable f) eqn:Hr; cbn [negb]; [|reflexivity].
  destruct (decode (raw f)) as [decoded|] eqn:Hd; [|reflexivity].
  unfold print.
  destruct (stdout_error _); cbn [and_then]; [reflexivity|].
  unfold write_text. cbn [files stdout].
  destruct (writable f) eqn:Hw; cbn [negb]; [|reflexivity].
  destruct (encode _) as [bytes|] eqn:He; cbn [fst files];
    by apply lookup_insert_ne.
Qed.




(** When the script returns, everything went well on the way. *)
Lemma main_returned_inv w w' :
  main decode encode stdout_error linesep w = (w', Returned) →
  ∃ f decoded bytes,
    files w !! "src/cluster_topics.rs" = Some f
    ∧ readable f = true ∧ writable f = true
    ∧ decode (raw f) = Some decoded
    ∧ encode (write_newlines linesep (patch_v1 (universal_newlines decoded)))
      = Some bytes
    ∧ stdout_error "✓ Modified src/cluster_topics.rs" = None
    ∧ stdout_error (nl +:+ "✅ All modifications complete!") = None
    ∧ w' = mkRun (<["src/cluster_topics.rs" := mkFile bytes true true]>
                    (files w))
                 (stdout w ++ [ "✓ Modified src/cluster_topics.rs"
                              ; nl +:+ "✅ All modifications complete!" ]).
Proof.
  unfold main.
  destruct (modify_cluster_topics_v1 _ _ _ _ _ w) as [w1 [|e]] eqn:Hv1;
    cbn [and_then]; [|discriminate].
  apply v1_returned_inv in Hv1
    as (f & decoded & bytes & Hf & Hr & Hw & Hd & He & Hp & ->).
  unfold print. cbn [files stdout].
  destruct (stdout_error (nl +:+ _)) eqn:Hp2; [discriminate|].
  intros [= <-]. exists f, decoded, bytes. rewrite <- app_assoc. done.
Qed.

Lemma main_returns w f decoded bytes :
  files w !! "src/cluster_topics.rs" = Some f →
  readable f = true → writable f = true →
  decode (raw f) = Some decoded →
  encode (write_newlines linesep (patch_v1 (universal_newlines decoded)))
    = Some bytes →
  stdout_error "✓ Modified src/cluster_topics.rs" = None →
  stdout_error (nl +:+ "✅ All modifications complete!") = None →
  main decode encode stdout_error linesep w
  = (mkRun (<["src/cluster_topics.rs" := mkFile bytes true true]> (files w))
           (stdout w ++ [ "✓ Modified src/cluster_topics.rs"
                        ; nl +:+ "✅ All modifications complete!" ]),
     Returned).
Proof.
  intros Hf Hr Hw Hd He Hp1 Hp2. unfold main.
  rewrite (v1_returns _ w f decoded bytes) by done.
  cbn [and_then]. unfold print. rewrite Hp2. cbn [files stdout].
  by rewrite <- app_assoc.
Qed.
End ScriptFacts.

(** ** What v2 adds, and what the entry point runs *)



(** For comparison, the text that v1 puts into [main] has one of each: the
    call [load_variant_settings(variant_name)?] and the use
    [&args.variant]. *)
Example v1_wires_the_variant :
  unguarded_count fn_keyword helper_name new_main_start = 1
  ∧ unguarded_count let_keyword args_name new_main_start = 1
  ∧ unguarded_count fn_keyword helper_name args_and_start_time = 0
  ∧ unguarded_count let_keyword args_name args_and_start_time = 0.
Proof. vm_compute. repeat split; reflexivity. Qed.



(** * Further properties of the script's entry point *)

Section ScriptExtras.
Variable decode : list ascii → option document.
Variable encode : document → option (list ascii).
Variable stdout_error : string → option exception.
Variable linesep : document.

(** X11.  How the script can end before it has written or printed anything:
    with [FileNotFoundError] when [src/cluster_topics.rs] does not exist,
    with [OSError] when it cannot be opened for reading, with
    [UnicodeDecodeError] when its bytes cannot be decoded, with [OSError]
    when it cannot be opened for writing; in each case the files and the
    output are as before.  When the script returns, it has created and
    deleted no file and has printed its two lines, in this order. *)
Theorem main_outcomes w :
  (files w !! "src/cluster_topics.rs" = None →
   main decode encode stdout_error linesep w = (w, Raised FileNotFoundError))
  ∧ (∀ f, files w !! "src/cluster_topics.rs" = Some f →
          readable f = false →
          main decode encode stdout_error linesep w = (w, Raised OSError))
  ∧ (∀ f, files w !! "src/cluster_topics.rs" = Some f →
          readable f = true → decode (raw f) = None →
          main decode encode stdout_error linesep w
          = (w, Raised UnicodeDecodeError))
  ∧ (∀ f decoded, files w !! "src/cluster_topics.rs" = Some f →
          readable f = true → decode (raw f) = Some decoded →
          writable f = false →
          main decode encode stdout_error linesep w = (w, Raised OSError))
  ∧ (∀ w', main decode encode stdout_error linesep w = (w', Returned) →
           dom (files w') = dom (files w)
           ∧ stdout w'
             = stdout w ++ [ "✓ Modified src/cluster_topics.rs"
                           ; nl +:+ "✅ All modifications complete!" ]).
Proof.
  split; [|split; [|split; [|split]]].
  - intros Hf. unfold main, modify_cluster_topics_v1. by rewrite Hf.
  - intros f Hf Hr. unfold main, modify_cluster_topics_v1, read_text.
    by rewrite Hf, Hr.
  - intros f Hf Hr Hd. unfold main, modify_cluster_topics_v1, read_text.
    by rewrite Hf, Hr, Hd.
  - intros f decoded Hf Hr Hd Hw. unfold main.
    rewrite (v1_after_read decode encode stdout_error linesep _ w f decoded)
      by done.
    unfold write_text. by rewrite Hw.
  - intros w' Hrun. apply main_returned_inv in Hrun
      as (f & decoded & bytes & Hf & _ & _ & _ & _ & _ & _ & ->).
    cbn [files stdout]. split; [|reflexivity].
    apply dom_insert_lookup_L. by rewrite Hf.
Qed.

(** X12.  When the text read from the Rust file contains none of the four
    anchors, the script still returns and prints both success lines, and it
    writes the file again: with the text as [read] returned it, so with the
    line ends of the platform and not always with the bytes it had. *)
Theorem unanchored_file_is_rewritten w f decoded bytes :
  files w !! "src/cluster_topics.rs" = Some f →
  readable f = true → writable f = true →
  decode (raw f) = Some decoded →
  ¬ occurs indicatif_import (universal_newlines decoded) →
  ¬ occurs settings_struct_anchor (universal_newlines decoded) →
  ¬ occurs main_anchor (universal_newlines decoded) →
  ¬ occurs old_main_start (universal_newlines decoded) →
  encode (write_newlines linesep (universal_newlines decoded)) = Some bytes →
  stdout_error "✓ Modified src/cluster_topics.rs" = None →
  stdout_error (nl +:+ "✅ All modifications complete!") = None →
  main decode encode stdout_error linesep w
  = (mkRun (<["src/cluster_topics.rs" := mkFile bytes true true]> (files w))
           (stdout w ++ [ "✓ Modified src/cluster_topics.rs"
                        ; nl +:+ "✅ All modifications complete!" ]),
     Returned).
Proof.
  intros Hf Hr Hw Hd H1 H2 H3 H4 He Hp1 Hp2.
  apply (main_returns decode encode stdout_error linesep w f decoded bytes);
    try assumption.
  assert (patch_v1 (universal_newlines decoded) = universal_newlines decoded)
    as ->; [|exact He].
  apply patch_v1_fixed_iff. split; [exact H1|]. split; [exact H2|].
  split; [exact H3 | exact H4].
Qed.

(** X13.  Two runs of the script, both returning, on a platform whose codec
    decodes what it encoded: the file ends up with the encoding of v1
    applied twice to the text first read, and the second run leaves the
    files of the first run as they are exactly when that text has none of
    the import line, the [Settings] struct header and the [#[tokio::main]]
    header. *)
Theorem main_twice w w1 w2 :
  (∀ x b, encode x = Some b → decode b = Some x) →
  linesep = [LF] ∨ linesep = [CR; LF] →
  main decode encode stdout_error linesep w = (w1, Returned) →
  main decode encode stdout_error linesep w1 = (w2, Returned) →
  ∃ f decoded bytes,
    files w !! "src/cluster_topics.rs" = Some f
    ∧ decode (raw f) = Some decoded
    ∧ encode (write_newlines linesep
                (patch_v1 (patch_v1 (universal_newlines decoded))))
      = Some bytes
    ∧ files w2
      = <["src/cluster_topics.rs" := mkFile bytes true true]> (files w)
    ∧ (files w2 = files w1
       ↔ ¬ occurs indicatif_import (universal_newlines decoded)
         ∧ ¬ occurs settings_struct_anchor (universal_newlines decoded)
         ∧ ¬ occurs main_anchor (universal_newlines decoded)).
Proof.
  intros Hcodec Hls Hrun1 Hrun2.
  apply main_returned_inv in Hrun1
    as (f & decoded & b1 & Hf & _ & _ & Hd & He1 & _ & _ & ->).
  apply main_returned_inv in Hrun2
    as (f2 & decoded2 & b2 & Hf2 & _ & _ & Hd2 & He2 & _ & _ & ->).
  cbn [files] in Hf2. rewrite lookup_insert_eq in Hf2.
  injection Hf2 as <-. cbn [raw] in Hd2.
  pose proof (Hcodec _ _ He1) as Hd1. rewrite Hd1 in Hd2.
  injection Hd2 as <-.
  remember (universal_newlines decoded) as x eqn:Hx.
  assert (¬ occurs [CR] (patch_v1 x)) as Hcr1.
  { apply patch_v1_no_cr. rewrite Hx. apply universal_newlines_no_cr. }
  assert (¬ occurs [CR] (patch_v1 (patch_v1 x))) as Hcr2.
  { apply patch_v1_no_cr. exact Hcr1. }
  rewrite (read_back linesep _ Hls Hcr1) in He2.
  exists f, decoded, b2. split; [exact Hf|]. split; [exact Hd|].
  rewrite <- Hx. split; [exact He2|].
  cbn [files]. rewrite insert_insert_eq. split; [reflexivity|].
  rewrite <- patch_v1_idempotent_iff. split.
  - intros Heq.
    apply (f_equal (λ m, m !! "src/cluster_topics.rs")) in Heq.
    rewrite !lookup_insert_eq in Heq. injection Heq as ->.
    apply Hcodec in He2. rewrite Hd1 in He2. injection He2 as Heq.
    apply (f_equal universal_newlines) in Heq.
    rewrite (read_back linesep _ Hls Hcr1) in Heq.
    rewrite (read_back linesep _ Hls Hcr2) in Heq. symmetry. exact Heq.
  - intros Heq. rewrite Heq in He2. rewrite He1 in He2.
    injection He2 as ->. reflexivity.
Qed.


(** X23.  v2 prints its success line before it writes (lines 249-252), v1
    after (lines 153-156).  On a file that can be read and not written, v2
    has printed [✓ Modified ...] when it raises, with the file untouched;
    v1 raises without having printed. *)
Theorem v2_prints_before_it_writes filepath w f decoded :
  files w !! filepath = Some f →
  readable f = true → decode (raw f) = Some decoded →
  writable f = false →
  stdout_error ("✓ Modified " +:+ filepath) = None →
  modify_cluster_topics_v2 decode encode stdout_error linesep filepath w
  = (mkRun (files w) (stdout w ++ ["✓ Modified " +:+ filepath]),
     Raised OSError)
  ∧ modify_cluster_topics_v1 decode encode stdout_error linesep filepath w
    = (w, Raised OSError).
Proof.
  intros Hf Hr Hd Hw Hp. split.
  - rewrite (v2_after_read decode encode stdout_error linesep _ w f decoded)
      by assumption.
    unfold print. rewrite Hp. cbn [and_then]. unfold write_text.
    rewrite Hw. reflexivity.
  - rewrite (v1_after_read decode encode stdout_error linesep _ w f decoded)
      by assumption.
    unfold write_text. rewrite Hw. reflexivity.
Qed.

(** X24.  When [sys.stdout] cannot take the line [✓ Modified ...], v1 has
    already written the file when [print] raises: the script ends with an
    exception and a patched file, without its last line.  v2, which prints
    first, leaves the file as it was. *)
Theorem print_failure_comes_after_the_v1_write filepath w f decoded bytes e :
  files w !! filepath = Some f →
  readable f = true → writable f = true →
  decode (raw f) = Some decoded →
  encode (write_newlines linesep (patch_v1 (universal_newlines decoded)))
    = Some bytes →
  stdout_error ("✓ Modified " +:+ filepath) = Some e →
  modify_cluster_topics_v1 decode encode stdout_error linesep filepath w
  = (mkRun (<[filepath := mkFile bytes true true]> (files w)) (stdout w),
     Raised e)
  ∧ modify_cluster_topics_v2 decode encode stdout_error linesep filepath w
    = (w, Raised e)
  ∧ (filepath = "src/cluster_topics.rs" →
     main decode encode stdout_error linesep w
     = (mkRun (<[filepath := mkFile bytes true true]> (files w)) (stdout w),
        Raised e)).
Proof.
  intros Hf Hr Hw Hd He Hp.
  assert (modify_cluster_topics_v1 decode encode stdout_error linesep
            filepath w
          = (mkRun (<[filepath := mkFile bytes true true]> (files w))
                   (stdout w),
             Raised e)) as Hv1.
  { rewrite (v1_after_read decode encode stdout_error linesep _ w f decoded)
      by assumption.
    unfold write_text. rewrite Hr, Hw, He. cbn [negb and_then].
    unfold print. rewrite Hp. reflexivity. }
  split; [exact Hv1|]. split.
  - rewrite (v2_after_read decode encode stdout_error linesep _ w f decoded)
      by assumption.
    unfold print. rewrite Hp. reflexivity.
  - intros ->. unfold main. rewrite Hv1. reflexivity.
Qed.
End ScriptExtras.

(** On a store whose v2 file is read-only, v1 then v2 leaves the v1 file
    patched, v2 then v1 leaves both files as they were. *)
Example orders_differ_when_a_call_raises :
  and_then
    (modify_cluster_topics_v1 plain_decode plain_encode prints_all
       posix_linesep "src/cluster_topics.rs" second_read_only)
    (modify_cluster_topics_v2 plain_decode plain_encode prints_all
       posix_linesep "src/cluster_topics_v2.rs")
  = (mkRun (<["src/cluster_topics.rs"
              := mkFile (patch_v1 import_and_main) true true]>
              (files second_read_only))
           [ "✓ Modified src/cluster_topics.rs"
           ; "✓ Modified src/cluster_topics_v2.rs" ],
     Raised OSError)
  ∧ and_then
      (modify_cluster_topics_v2 plain_decode plain_encode prints_all
         posix_linesep "src/cluster_topics_v2.rs" second_read_only)
      (modify_cluster_topics_v1 plain_decode plain_encode prints_all
         posix_linesep "src/cluster_topics.rs")
    = (mkRun (files second_read_only)
             [ "✓ Modified src/cluster_topics_v2.rs" ],
       Raised OSError).
Proof. split; vm_compute; reflexivity. Qed.

(** A file with Windows line ends and no anchor, read where the line
    separator is ["\n"]: the script reports success and the file comes back
    with other bytes. *)
Lemma unanchored_file_is_rewritten_witness :
  main plain_decode plain_encode prints_all posix_linesep crlf_run
  = (mkRun (<["src/cluster_topics.rs" := mkFile already_calls true true]>
              (files crlf_run))
           [ "✓ Modified src/cluster_topics.rs"
           ; nl +:+ "✅ All modifications complete!" ],
     Returned)
  ∧ length (replace [LF] [CR; LF] already_calls) ≠ length already_calls.
Proof.
  split; [|vm_compute; discriminate].
  apply (unanchored_file_is_rewritten plain_decode plain_encode prints_all
           posix_linesep crlf_run
           (mkFile (replace [LF] [CR; LF] already_calls) true true)
           (replace [LF] [CR; LF] already_calls) already_calls).
  - apply lookup_insert_eq.
  - reflexivity.
  - reflexivity.
  - reflexivity.
  - apply contains_false. by_computation.
  - apply contains_false. by_computation.
  - apply contains_false. by_computation.
  - apply contains_false. by_computation.
  - by_computation.
  - reflexivity.
  - reflexivity.
Defined.

Lemma main_twice_witness :
  ∃ f decoded bytes,
    files both_files !! "src/cluster_topics.rs" = Some f
    ∧ plain_decode (raw f) = Some decoded
    ∧ plain_encode (write_newlines posix_linesep
                      (patch_v1 (patch_v1 (universal_newlines decoded))))
      = Some bytes
    ∧ <["src/cluster_topics.rs"
        := mkFile (patch_v1 (patch_v1 import_and_main)) true true]>
        (<["src/cluster_topics.rs"
           := mkFile (patch_v1 import_and_main) true true]>
           (files both_files))
      = <["src/cluster_topics.rs" := mkFile bytes true true]>
          (files both_files)
    ∧ (<["src/cluster_topics.rs"
         := mkFile (patch_v1 (patch_v1 import_and_main)) true true]>
         (<["src/cluster_topics.rs"
            := mkFile (patch_v1 import_and_main) true true]>
            (files both_files))
       = <["src/cluster_topics.rs"
           := mkFile (patch_v1 import_and_main) true true]>
           (files both_files)
       ↔ ¬ occurs indicatif_import (universal_newlines decoded)
         ∧ ¬ occurs settings_struct_anchor (universal_newlines decoded)
         ∧ ¬ occurs main_anchor (universal_newlines decoded)).
Proof.
  pose (w1 := mkRun (<["src/cluster_topics.rs"
                       := mkFile (patch_v1 import_and_main) true true]>
                       (files both_files))
                    (stdout both_files
                     ++ [ "✓ Modified src/cluster_topics.rs"
                        ; nl +:+ "✅ All modifications complete!" ])).
  pose (w2 := mkRun (<["src/cluster_topics.rs"
                       := mkFile (patch_v1 (patch_v1 import_and_main))
                            true true]>
                       (files w1))
                    (stdout w1
                     ++ [ "✓ Modified src/cluster_topics.rs"
                        ; nl +:+ "✅ All modifications complete!" ])).
  assert (main plain_decode plain_encode prints_all posix_linesep both_files
          = (w1, Returned)) as Hrun1.
  { apply (main_returns plain_decode plain_encode prints_all posix_linesep
             both_files (mkFile import_and_main true true) import_and_main).
    - apply lookup_insert_eq.
    - reflexivity.
    - reflexivity.
    - reflexivity.
    - by_computation.
    - reflexivity.
    - reflexivity. }
  assert (main plain_decode plain_encode prints_all posix_linesep w1
          = (w2, Returned)) as Hrun2.
  { apply (main_returns plain_decode plain_encode prints_all posix_linesep
             w1 (mkFile (patch_v1 import_and_main) true true)
             (patch_v1 import_and_main)).
    - apply lookup_insert_eq.
    - reflexivity.
    - reflexivity.
    - reflexivity.
    - by_computation.
    - reflexivity.
    - reflexivity. }
  assert (∀ x b, plain_encode x = Some b → plain_decode b = Some x) as Hcodec.
  { intros x b [= <-]. reflexivity. }
  exact (main_twice plain_decode plain_encode prints_all posix_linesep
           both_files w1 w2 Hcodec (or_introl eq_refl) Hrun1 Hrun2).
Defined.


Lemma v2_prints_before_it_writes_witness :
  modify_cluster_topics_v2 plain_decode plain_encode prints_all posix_linesep
    "src/cluster_topics_v2.rs" read_only_v2
  = (mkRun (files read_only_v2) [ "✓ Modified src/cluster_topics_v2.rs" ],
     Raised OSError)
  ∧ modify_cluster_topics_v1 plain_decode plain_encode prints_all
      posix_linesep "src/cluster_topics_v2.rs" read_only_v2
    = (read_only_v2, Raised OSError).
Proof.
  apply (v2_prints_before_it_writes plain_decode plain_encode prints_all
           posix_linesep "src/cluster_topics_v2.rs" read_only_v2
           (mkFile v2_target true false) v2_target).
  - apply lookup_insert_eq.
  - reflexivity.
  - reflexivity.
  - reflexivity.
  - reflexivity.
Defined.

(** In an ASCII locale the check mark cannot be printed. *)
Lemma print_failure_comes_after_the_v1_write_witness :
  main plain_decode plain_encode ascii_terminal posix_linesep both_files
  = (mkRun (<["src/cluster_topics.rs"
              := mkFile (patch_v1 import_and_main) true true]>
              (files both_files))
           [],
     Raised UnicodeEncodeError)
  ∧ modify_cluster_topics_v2 plain_decode plain_encode ascii_terminal
      posix_linesep "src/cluster_topics.rs" both_files
    = (both_files, Raised UnicodeEncodeError).
Proof.
  destruct (print_failure_comes_after_the_v1_write plain_decode plain_encode
              ascii_terminal posix_linesep "src/cluster_topics.rs" both_files
              (mkFile import_and_main true true) import_and_main
              (patch_v1 import_and_main) UnicodeEncodeError)
    as (_ & Hv2 & Hmain).
  - apply lookup_insert_eq.
  - reflexivity.
  - reflexivity.
  - reflexivity.
  - by_computation.
  - by_computation.
  - split; [exact (Hmain eq_refl) | exact Hv2].
Defined.

(** The same two files where nothing changes: the one with ["\n"] line ends
    read and written with ["\n"] as line separator, the one with ["\r\n"]
    line ends with ["\r\n"]. *)
Example unanchored_file_keeps_its_bytes :
  main plain_decode plain_encode prints_all posix_linesep unanchored_run
  = (mkRun (files unanchored_run)
           [ "✓ Modified src/cluster_topics.rs"
           ; nl +:+ "✅ All modifications complete!" ],
     Returned)
  ∧ main plain_decode plain_encode prints_all windows_linesep crlf_run
    = (mkRun (files crlf_run)
             [ "✓ Modified src/cluster_topics.rs"
             ; nl +:+ "✅ All modifications complete!" ],
       Returned).
Proof. split; vm_compute; reflexivity. Qed.
